(** * Indigo / Drastic: tree namespace, ACL resolution, chunked objects, term index

    A shallow embedding of [indigo/models/collection.py],
    [indigo/models/data_object.py] and [indigo/models/search2.py].

    The backing store is a wide-column store: a table is a finite map from
    its primary key to the remaining columns.  Python exceptions are values
    of [Exn]; a call that may raise returns a [Result]. *)

From stdpp Require Import gmap strings list fin_maps sorting pretty.
From Stdlib Require Import ZArith Ascii String.

Set Warnings "-clear-no-such-hyp".

#[local] Open Scope string_scope.
#[local] Open Scope Z_scope.
#[local] Open Scope stdpp_scope.

(** ** Exceptions and results *)

Inductive Exn : Type :=
| NoSuchCollectionError (container : string)
| ResourceConflictError (container : string)
| CollectionConflictError (container : string)
| AttributeError (attr : string)
| KeyError (key : string).

Inductive Result (A : Type) : Type :=
| Ok (a : A)
| Raise (e : Exn).
Arguments Ok {A} a.
Arguments Raise {A} e.

(** ** Collaborators that live outside the modelled files *)

(** [indigo.util]: the path algebra. *)
Class Util := {
  merge : string → string → string;
  split : string → string * string
}.

(** [indigo.models.acl]: the codec between levels and bit masks. *)
Class AclCodec := {
  acemask_to_str : Z → bool → string;
  str_to_acemask : string → bool → Z
}.

(** [indigo.util.default_cdmi_id]: the [n]-th identifier the generator
    hands out. *)
Class IdGen := { default_cdmi_id : nat → string }.

(** The [Ace] user-defined type of the store schema. *)
Record Ace : Type := mkAce {
  acetype : string;
  identifier : string;
  aceflags : Z;
  acemask : Z
}.

(** [drastic/models/user.py]: the columns of [User] the resolver reads. *)
Module User.
Record t : Type := mk {
  id : string;
  username : string;
  administrator : bool;
  active : bool;
  groups : list string
}.
End User.

(** ** The [tree_entry] table *)

Module TreeEntry.

(** Columns of a row other than its primary key [(container, name)]. *)
Record cols : Type := mkCols {
  id : option string;
  container_id : option string;
  container_create_ts : option Z;
  container_modified_ts : option Z;
  container_metadata : gmap string string;
  container_acl : gmap string Ace
}.

(** A model instance: the key together with the columns. *)
Record t : Type := mk {
  container : string;
  name : string;
  columns : cols
}.

Abbreviation table := (gmap (string * string) cols).

(** The store: the table and the number of identifiers generated so far. *)
Record store : Type := mkStore {
  rows : table;
  generated : nat
}.

(** Number of rows stored under the key [k]. *)
Definition count_rows (k : string * string) (m : table) : nat :=
  List.length (filter (λ kv : string * string * cols, kv.1 = k) (map_to_list m)).

Section Orm.
Context {gen : IdGen}.

(** Modelled from the spec: the [TreeEntry] model class is not among the
    sources.  [TreeEntry.create] writes a row with the given columns; a
    [container_id] that is not given takes a freshly generated default,
    the other columns stay empty. *)
Definition create (container name : string) (id : option string)
    (create_ts modified_ts : option Z) (st : store) : t * store :=
  let c := mkCols id (Some (default_cdmi_id (generated st)))
                  create_ts modified_ts ∅ ∅ in
  (mk container name c,
   mkStore (<[(container, name) := c]> (rows st)) (S (generated st))).

(** Modelled from the spec: [save] upserts the row under its key. *)
Definition save (e : t) (st : store) : store :=
  mkStore (<[(container e, name e) := columns e]> (rows st)) (generated st).

(** Modelled from the spec: [delete] removes the row under its key. *)
Definition delete (e : t) (st : store) : store :=
  mkStore (base.delete (container e, name e) (rows st)) (generated st).

(** [TreeEntry.objects.filter(container=c, name=n).first()]. *)
Definition filter_first (c n : string) (st : store) : option t :=
  mk c n <$> rows st !! (c, n).

(** [DELETE FROM tree_entry WHERE container=c]. *)
Definition delete_partition (c : string) (st : store) : store :=
  mkStore (filter (λ kv, kv.1.1 ≠ c) (rows st)) (generated st).

(** [TreeEntry.objects.filter(container=c)]: the rows of the partition of
    [c], in the order of the clustering key [name]. *)
Definition name_le (a b : string * cols) : Prop := String.leb a.1 b.1 = true.

#[local] Instance name_le_dec a b : Decision (name_le a b) :=
  decide (String.leb a.1 b.1 = true).

Definition partition (c : string) (st : store) : list (string * cols) :=
  merge_sort name_le
    ((λ kv, (kv.1.2, kv.2)) <$>
       filter (λ kv : string * string * cols, kv.1.1 = c)
         (map_to_list (rows st))).

(** Assignment to the attribute [id] of an instance. *)
Definition set_id (e : t) (i : option string) : t :=
  let c := columns e in
  mk (container e) (name e)
     (mkCols i (container_id c) (container_create_ts c)
             (container_modified_ts c) (container_metadata c)
             (container_acl c)).

End Orm.
End TreeEntry.

(** ** [indigo/models/collection.py] *)

(** [s.endswith(c)] for a one-character argument. *)
Fixpoint endswith (c : ascii) (s : string) : bool :=
  match s with
  | EmptyString => false
  | String a EmptyString => Ascii.eqb a c
  | String _ r => endswith c r
  end.

(** The slice [s[:-1]]: all but the last character. *)
Fixpoint but_last (s : string) : string :=
  match s with
  | EmptyString => EmptyString
  | String _ EmptyString => EmptyString
  | String a r => String a (but_last r)
  end.

Module Collection.

Record t : Type := mk {
  entry : TreeEntry.t;
  is_root : bool;
  name : string;
  metadata : gmap string string;
  path : string;
  parent : string;
  _id : option string;
  create_ts : option Z;
  acl : gmap string Ace
}.

Section Model.
Context {util : Util} {codec : AclCodec} {gen : IdGen}.

(** [Collection.__init__] *)
Definition init (e : TreeEntry.t) : t :=
  let root := bool_decide (TreeEntry.name e = ".")
              && bool_decide (TreeEntry.container e = "/") in
  let c := TreeEntry.columns e in
  mk e root
     (if root then "Home" else (split (TreeEntry.container e)).2)
     (TreeEntry.container_metadata c)
     (TreeEntry.container e)
     (split (TreeEntry.container e)).1
     (TreeEntry.container_id c)
     (TreeEntry.container_create_ts c)
     (TreeEntry.container_acl c).

(** [Collection.find] *)
Definition find (p : string) (st : TreeEntry.store) : option t :=
  init <$> TreeEntry.filter_first p "." st.

(** Modelled from the spec: [Resource.find] is not among the sources.  A
    child object is the row of its parent whose name is the raw
    basename, so an object occupies a path when that row exists. *)
Definition Resource_find (p : string) (st : TreeEntry.store)
    : option TreeEntry.t :=
  TreeEntry.filter_first (split p).1 (split p).2 st.

(** [Collection.create].  The [metadata] argument is converted and then
    dropped by the source; [now] is [datetime.now()]. *)
Definition create (name container : string)
    (metadata : option (gmap string string)) (now : Z)
    (st : TreeEntry.store) : Result (option t) * TreeEntry.store :=
  let path := merge container name in
  match find container st with
  | None => (Raise (NoSuchCollectionError container), st)
  | Some _ =>
    match Resource_find (merge container name) st with
    | Some _ => (Raise (ResourceConflictError container), st)
    | None =>
      match find path st with
      | Some _ => (Raise (CollectionConflictError container), st)
      | None =>
        let '(coll_entry, st1) :=
          TreeEntry.create path "." None (Some now) (Some now) st in
        let st2 := TreeEntry.save coll_entry st1 in
        let coll_entry :=
          TreeEntry.set_id coll_entry
            (TreeEntry.container_id (TreeEntry.columns coll_entry)) in
        let st3 := TreeEntry.save coll_entry st2 in
        let '(child_entry, st4) :=
          TreeEntry.create container (name +:+ "/")
            (TreeEntry.container_id (TreeEntry.columns coll_entry))
            None None st3 in
        let st5 := TreeEntry.save child_entry st4 in
        (Ok (find path st5), st5)
      end
    end
  end.

(** The rows written by a successful [create]. *)
Definition created_self (now : Z) (st : TreeEntry.store) : TreeEntry.cols :=
  let cid := Some (default_cdmi_id (TreeEntry.generated st)) in
  TreeEntry.mkCols cid cid (Some now) (Some now) ∅ ∅.

Definition created_child (st : TreeEntry.store) : TreeEntry.cols :=
  TreeEntry.mkCols (Some (default_cdmi_id (TreeEntry.generated st)))
                   (Some (default_cdmi_id (S (TreeEntry.generated st))))
                   None None ∅ ∅.

Definition created_rows (name container : string) (now : Z)
    (st : TreeEntry.store) : TreeEntry.table :=
  <[(container, name +:+ "/") := created_child st]>
    (<[(merge container name, ".") := created_self now st]>
       (TreeEntry.rows st)).

(** Keys of the two rows that stand for the collection at path [p]. *)
Definition self_key (p : string) : string * string := (p, ".").

Definition child_key (p : string) : string * string :=
  ((split p).1, (split p).2 +:+ "/").

(** [Collection.delete] *)
Definition delete (self : t) (st : TreeEntry.store) : TreeEntry.store :=
  let st1 := TreeEntry.delete_partition (path self) st in
  match TreeEntry.filter_first (parent self) (name self +:+ "/") st1 with
  | Some child => TreeEntry.delete child st1
  | None => st1
  end.

(** The [k]-th ancestor of a path: [k] applications of the parent
    component of [split]. *)
Fixpoint ancestor (k : nat) (p : string) : string :=
  match k with
  | O => p
  | S k' => ancestor k' (split p).1
  end.

(** The body of the loop of [get_authorized_actions] for one group. *)
Definition grant (acl : gmap string Ace) (actions : gset string)
    (gid : string) : gset string :=
  match acl !! gid with
  | None => actions
  | Some ace =>
    let level := acemask_to_str (acemask ace) false in
    if bool_decide (level = "read") then {[ "read" ]} ∪ actions
    else if bool_decide (level = "write") then
      {[ "write"; "delete"; "edit" ]} ∪ actions
    else if bool_decide (level = "read/write") then
      {[ "read"; "write"; "delete"; "edit" ]} ∪ actions
    else actions
  end.

(** [Collection.get_authorized_actions].  The recursion follows parent
    paths held in the store, so it is bounded by [fuel]; [None] means
    the bound was reached, every other outcome is the program's own. *)
Fixpoint get_authorized_actions (fuel : nat) (st : TreeEntry.store)
    (self : t) (user : User.t) : option (Result (gset string)) :=
  match fuel with
  | O => None
  | S fuel' =>
    if bool_decide (acl self = ∅) then
      if is_root self then Some (Ok ∅)
      else
        match find (parent self) st with
        | None => Some (Raise (AttributeError "get_authorized_actions"))
        | Some parent_container =>
          get_authorized_actions fuel' st parent_container user
        end
    else
      Some (Ok (foldl (grant (acl self)) ∅
                  (User.groups user ++ ["AUTHENTICATED@"])%list))
  end.

(** One turn of the loop of [get_child]. *)
Definition sort_child (acc : list string * list string)
    (entry : string * TreeEntry.cols) : list string * list string :=
  if bool_decide (entry.1 = ".") then acc
  else if endswith "/" entry.1 then ((acc.1 ++ [but_last entry.1])%list, acc.2)
  else (acc.1, (acc.2 ++ [entry.1])%list).

(** [Collection.get_child]: the names of the child collections and of the
    child data objects. *)
Definition get_child (self : t) (st : TreeEntry.store)
    : list string * list string :=
  foldl sort_child ([], []) (TreeEntry.partition (path self) st).

(** One turn of the loop of [read_acl]. *)
Definition sort_ace (acc : list string * list string)
    (item : string * Ace) : list string * list string :=
  let oper := acemask_to_str (acemask item.2) false in
  if bool_decide (oper = "read") then ((acc.1 ++ [item.1])%list, acc.2)
  else if bool_decide (oper = "write") then (acc.1, (acc.2 ++ [item.1])%list)
  else if bool_decide (oper = "read/write") then
    ((acc.1 ++ [item.1])%list, (acc.2 ++ [item.1])%list)
  else acc.

(** [Collection.read_acl]: the groups with read access and those with
    write access, in the iteration order of the dictionary. *)
Definition read_acl (self : t) : list string * list string :=
  foldl sort_ace ([], []) (map_to_list (acl self)).

(** [Collection.user_can] *)
Definition user_can (fuel : nat) (st : TreeEntry.store) (self : t)
    (user : User.t) (action : string) : option (Result bool) :=
  if User.administrator user then Some (Ok true)
  else
    match get_authorized_actions fuel st self user with
    | None => None
    | Some (Raise e) => Some (Raise e)
    | Some (Ok actions) => Some (Ok (bool_decide (action ∈ actions)))
    end.
End Model.
End Collection.

(** ** [indigo/models/data_object.py] *)

(** [str.upper] and [str.lower] on byte strings. *)
Definition upper_ascii (c : ascii) : ascii :=
  let n := nat_of_ascii c in
  if (97 <=? n)%nat && (n <=? 122)%nat then ascii_of_nat (n - 32) else c.

Definition lower_ascii (c : ascii) : ascii :=
  let n := nat_of_ascii c in
  if (65 <=? n)%nat && (n <=? 90)%nat then ascii_of_nat (n + 32) else c.

Fixpoint map_string (f : ascii → ascii) (s : string) : string :=
  match s with
  | EmptyString => EmptyString
  | String c r => String (f c) (map_string f r)
  end.

Definition upper : string → string := map_string upper_ascii.
Definition lower : string → string := map_string lower_ascii.

(** [indigo.models.Group]: the directory of groups, consulted by id. *)
Module Group.
Record t : Type := mk { uuid : string; name : string; owner : string }.
Class Directory := { find_by_uuid : string → option t }.
End Group.

(** [zipfile.ZipFile(StringIO(blob), 'r').read(entry)]. *)
Class Zip := { zip_read : string → string → Result string }.

(** [indigo.models.Group.find]: the directory of groups, consulted by
    name. *)
Class GroupNames := { Group_find : string → option Group.t }.

(** [indigo.models.acl]: the codec of the CDMI spelling of flags and masks. *)
Class CdmiCodec := {
  cdmi_str_to_aceflag : string → Z;
  cdmi_str_to_acemask : string → bool → Z
}.

(** Values passed as keyword arguments and statement parameters. *)
Inductive pyval : Type :=
| PNone
| PStr (s : string)
| PInt (z : Z)
| PBool (b : bool).

(** Statements handed to the session by [data_object.py]. *)
Inductive Stmt : Type :=
| UpdateWhereUuid (field : string) (value key : pyval)
| UpdateWhereUuidSeq (field : string) (value key seq : pyval)
| AclPlus (keyspace : string) (literal : gmap string Ace) (uuid : string).

Module DataObject.

Definition static_fields : list string :=
  ["checksum"; "size"; "metadata"; "mimetype"; "alt_url";
   "create_ts"; "modified_ts"; "type"; "acl"; "treepath"].

(** Per-row columns of [data_object], keyed by [(uuid, sequence_number)]. *)
Record chunk : Type := mkChunk { blob : string; compressed : bool }.

(** The table: the static [acl] column per partition and the chunk rows. *)
Record store : Type := mkStore {
  acls : gmap string (gmap string Ace);
  chunks : gmap (string * Z) chunk
}.

(** A model instance, as [find] or [append_chunk] returns it: the key, the
    per-row columns and the static columns by name. *)
Record t : Type := mk {
  uuid : string;
  sequence_number : Z;
  row : chunk;
  static : string → pyval
}.

(** Attribute access on an instance: the columns the class declares; any
    other name raises. *)
Definition getattr (self : t) (attr : string) : Result pyval :=
  if bool_decide (attr = "uuid") then Ok (PStr (uuid self))
  else if bool_decide (attr ∈ static_fields) then Ok (static self attr)
  else if bool_decide (attr = "sequence_number") then
    Ok (PInt (sequence_number self))
  else if bool_decide (attr = "blob") then Ok (PStr (blob (row self)))
  else if bool_decide (attr = "compressed") then
    Ok (PBool (compressed (row self)))
  else Raise (AttributeError attr).

(** [DataObject.objects.filter(uuid=u)]: the rows of the partition, in the
    order of the clustering key [sequence_number]. *)
Definition seq_le (a b : Z * chunk) : Prop := a.1 ≤ b.1.

#[local] Instance seq_le_dec a b : Decision (seq_le a b) := Z_le_dec a.1 b.1.

Definition objects_filter (u : string) (st : store) : list (Z * chunk) :=
  merge_sort seq_le
    ((λ kv, (kv.1.2, kv.2)) <$>
       filter (λ kv : string * Z * chunk, kv.1.1 = u)
         (map_to_list (chunks st))).

Section Model.
Context {codec : AclCodec} {dir : Group.Directory} {zip : Zip}.

(** The generator [chunk_content], run to completion over [entries]: the
    values yielded and the exception that ended it, if any. *)
Fixpoint drain (entries : list (Z * chunk)) : list string * option Exn :=
  match entries with
  | [] => ([], None)
  | entry :: rest =>
    if compressed entry.2 then
      match zip_read (blob entry.2) "data" with
      | Raise e => ([], Some e)
      | Ok content => let '(ys, e) := drain rest in (content :: ys, e)
      end
    else let '(ys, e) := drain rest in (blob entry.2 :: ys, e)
  end.

Definition chunk_content (self : t) (st : store) : list string * option Exn :=
  drain (objects_filter (uuid self) st).

(** What a chunk row stands for: the entry [data] of its archive when the
    row is flagged compressed, its blob otherwise. *)
Definition yields (entry : Z * chunk) (content : string) : Prop :=
  if compressed entry.2 then zip_read (blob entry.2) "data" = Ok content
  else content = blob entry.2.

Definition readable (entry : Z * chunk) : Prop :=
  compressed entry.2 = true → ∃ content, zip_read (blob entry.2) "data" = Ok content.

(** [DataObject.update]: [kwargs] in iteration order; the statements
    executed so far are kept when an exception ends the loop. *)
Fixpoint update (self : t) (kwargs : list (string * pyval))
    : list Stmt * Result unit :=
  match kwargs with
  | [] => ([], Ok ())
  | (arg, v) :: rest =>
    let continue q := let '(qs, r) := update self rest in (q :: qs, r) in
    if bool_decide (arg ∈ static_fields) then
      match getattr self "uuid" with
      | Raise e => ([], Raise e)
      | Ok u => continue (UpdateWhereUuid arg v u)
      end
    else
      match getattr self "container" with
      | Raise e => ([], Raise e)
      | Ok c =>
        match getattr self "sequence_number" with
        | Raise e => ([], Raise e)
        | Ok s => continue (UpdateWhereUuidSeq arg v c s)
        end
      end
  end.

(** The dictionary [access] of [update_acl]. *)
Definition access_of (read_access write_access : list string)
    : gmap string string :=
  let access := foldl (λ acc gid, <[gid := "read"]> acc) ∅ read_access in
  foldl (λ acc gid,
           if bool_decide (is_Some (acc !! gid))
           then <[gid := "read/write"]> acc
           else <[gid := "write"]> acc)
        access write_access.

(** One entry of [ls_access]; [None] is the [continue] branch. *)
Definition ace_of (gid level : string) : option Ace :=
  match Group.find_by_uuid gid with
  | Some group =>
    Some (mkAce "ALLOW" (Group.name group) 0 (str_to_acemask level true))
  | None =>
    if bool_decide (upper gid = "AUTHENTICATED@") then
      Some (mkAce "ALLOW" "AUTHENTICATED@" 0 (str_to_acemask level true))
    else None
  end.

(** The map literal [{...}] that [update_acl] formats into its query. *)
Definition acl_literal (read_access write_access : list string)
    : gmap string Ace :=
  map_imap ace_of (access_of read_access write_access).

(** Execution of a statement on the static [acl] column: [acl = acl + m]
    puts every entry of [m] into the stored map and keeps the others. *)
Definition execute (q : Stmt) (st : store) : store :=
  match q with
  | AclPlus _ literal u =>
    mkStore (<[u := literal ∪ default ∅ (acls st !! u)]> (acls st)) (chunks st)
  | _ => st
  end.

(** [DataObject.update_acl] *)
Definition update_acl (keyspace : string) (self : t)
    (read_access write_access : list string) (st : store) : store :=
  execute (AclPlus keyspace (acl_literal read_access write_access) (uuid self))
          st.

(** [DataObject.create_acl] *)
Definition create_acl (keyspace : string) (self : t)
    (read_access write_access : list string) (st : store) : store :=
  update_acl keyspace self read_access write_access st.

(** The ACL a reader of the partition sees. *)
Definition acl_of (self : t) (st : store) : gmap string Ace :=
  default ∅ (acls st !! uuid self).
End Model.

(** [DataObject.append_chunk]: the row is written under its key;
    [defaults] are the values the new instance takes for the static
    columns it was not given. *)
Definition append_chunk (defaults : string → pyval) (u data : string)
    (seq : Z) (compressed : bool) (st : store) : t * store :=
  (mk u seq (mkChunk data compressed) defaults,
   mkStore (acls st) (<[(u, seq) := mkChunk data compressed]> (chunks st))).

(** [DataObject.create]: [new_id] is the identifier [default_cdmi_id()]
    returned and [now] the time of the call. *)
Definition create (new_id : string) (now : Z) (defaults : string → pyval)
    (data : string) (compressed : bool) (st : store) : t * store :=
  (mk new_id 0 (mkChunk data compressed)
      (λ f, if bool_decide (f = "create_ts") || bool_decide (f = "modified_ts")
            then PInt now else defaults f),
   mkStore (acls st) (<[(new_id, 0) := mkChunk data compressed]> (chunks st))).

(** [DataObject.delete_id]: [DELETE FROM data_object WHERE uuid=u]. *)
Definition delete_id (u : string) (st : store) : store :=
  mkStore (delete u (acls st))
          (filter (λ kv : string * Z * chunk, kv.1.1 ≠ u) (chunks st)).

(** [DataObject.find]: the first row of the partition; [statics] are the
    static columns stored for it. *)
Definition find (statics : string → pyval) (u : string) (st : store)
    : option t :=
  match objects_filter u st with
  | [] => None
  | (seq, c) :: _ => Some (mk u seq c statics)
  end.

Section Cdmi.
Context {names : GroupNames} {cdmi : CdmiCodec}.

(** One turn of the loop of [update_cdmi_acl] over an ACE dictionary:
    [Ok None] is a [continue], [Ok (Some _)] the entry appended to
    [ls_access].  The arguments of the format are evaluated in order, the
    key [group.uuid] first. *)
Definition cdmi_entry (cdmi_ace : gmap string string)
    : Result (option (string * Ace)) :=
  match cdmi_ace !! "identifier" with
  | None => Ok None
  | Some gid =>
    let group := Group_find gid in
    let ident :=
      match group with
      | Some g => Some (Group.name g)
      | None => if bool_decide (upper gid = "AUTHENTICATED@")
                then Some "AUTHENTICATED@" else None
      end in
    match ident with
    | None => Ok None
    | Some ident =>
      match group with
      | None => Raise (AttributeError "uuid")
      | Some g =>
        match cdmi_ace !! "acetype" with
        | None => Raise (KeyError "acetype")
        | Some acetype =>
          match cdmi_ace !! "aceflags" with
          | None => Raise (KeyError "aceflags")
          | Some flags =>
            match cdmi_ace !! "acemask" with
            | None => Raise (KeyError "acemask")
            | Some mask =>
              Ok (Some (Group.uuid g,
                        mkAce (upper acetype) ident
                              (cdmi_str_to_aceflag flags)
                              (cdmi_str_to_acemask mask false)))
            end
          end
        end
      end
    end
  end.

(** The loop of [update_cdmi_acl]: the entries of [ls_access] in order, or
    the exception that ended the loop. *)
Fixpoint cdmi_entries (cdmi_acl : list (gmap string string))
    : Result (list (string * Ace)) :=
  match cdmi_acl with
  | [] => Ok []
  | cdmi_ace :: rest =>
    match cdmi_entry cdmi_ace with
    | Raise e => Raise e
    | Ok None => cdmi_entries rest
    | Ok (Some kv) =>
      match cdmi_entries rest with
      | Raise e => Raise e
      | Ok kvs => Ok (kv :: kvs)
      end
    end
  end.

(** The map a literal [{k1: v1, k2: v2, ...}] denotes: a later entry
    replaces an earlier one with the same key. *)
Definition map_literal (kvs : list (string * Ace)) : gmap string Ace :=
  foldl (λ (m : gmap string Ace) kv, <[kv.1 := kv.2]> m) ∅ kvs.

(** [DataObject.update_cdmi_acl]: [UPDATE data_object SET acl={...}]. *)
Definition update_cdmi_acl (self : t) (cdmi_acl : list (gmap string string))
    (st : store) : Result unit * store :=
  match cdmi_entries cdmi_acl with
  | Raise e => (Raise e, st)
  | Ok kvs =>
    (Ok (), mkStore (<[uuid self := map_literal kvs]> (acls st)) (chunks st))
  end.
End Cdmi.
End DataObject.

(** ** [indigo/models/search2.py] *)

Module SearchIndex2.

(** One created row of [search_index]. *)
Record t : Type := mk {
  term : string;
  term_type : string;
  object_type : string;
  object_id : string
}.

(** An attribute of the indexed object: a string, a dictionary or [None]. *)
Inductive attr : Type :=
| ANone
| AStr (s : string)
| ADict (items : list (string * string)).

(** A metadata value: a string or a list of strings. *)
Inductive mdval : Type :=
| MStr (s : string)
| MList (l : list string).

(** The indexed object, through the accessors [index] uses. *)
Record object : Type := mkObject {
  class_name : string;
  id : string;
  get_metadata : list (string * mdval);
  getattr : string → Result attr
}.

(** [is_stop_word] *)
Definition is_stop_word (term : string) : bool :=
  bool_decide (term ∈ ["a"; "an"; "and"; "the"; "of"; "is"; "in"; "it"; "or"; "to"]).

(** [str.replace(a, b)] for one-character arguments. *)
Definition replace (a b : ascii) : string → string :=
  map_string (λ c, if Ascii.eqb c a then b else c).

(** [str.split(sep)] with an explicit one-character separator. *)
Fixpoint split_on (sep : ascii) (s : string) : list string :=
  match s with
  | EmptyString => [EmptyString]
  | String c r =>
    if Ascii.eqb c sep then EmptyString :: split_on sep r
    else match split_on sep r with
         | [] => [String c EmptyString]
         | w :: ws => String c w :: ws
         end
  end.

(** [str.strip()] *)
Definition is_space (c : ascii) : bool :=
  let n := nat_of_ascii c in
  ((9 <=? n)%nat && (n <=? 13)%nat) || (n =? 32)%nat.

Fixpoint lstrip (s : string) : string :=
  match s with
  | EmptyString => EmptyString
  | String c r => if is_space c then lstrip r else s
  end.

Fixpoint rstrip (s : string) : string :=
  match s with
  | EmptyString => EmptyString
  | String c r =>
    match rstrip r with
    | EmptyString => if is_space c then EmptyString else String c EmptyString
    | r' => String c r'
    end
  end.

Definition strip (s : string) : string := rstrip (lstrip s).

(** The local function [clean] *)
Definition clean (t : string) : list string :=
  if bool_decide (t = "") then []
  else split_on " " (replace "_" " " (replace "." " " (lower t))).

(** The local function [clean_full] *)
Definition clean_full (t : string) : string :=
  if bool_decide (t = "") then "" else lower t.

(** [list.remove(x)]: drops the first occurrence. *)
Fixpoint remove_first (x : string) (l : list string) : list string :=
  match l with
  | [] => []
  | y :: r => if bool_decide (y = x) then r else y :: remove_first x r
  end.

(** Terms contributed by the metadata dictionary. *)
Definition metadata_terms (md : list (string * mdval))
    : list (string * string) :=
  flat_map (λ kv : string * mdval,
    match kv.2 with
    | MList l => flat_map (λ vv, (λ el, ("metadata", el)) <$> clean (strip vv)) l
    | MStr v => (λ el, ("metadata", el)) <$> clean (strip v)
    end) md.

(** Terms contributed by one attribute [f]. *)
Definition attr_terms (f : string) (a : attr) : list (string * string) :=
  match a with
  | ADict items =>
    flat_map (λ kv : string * string,
      (((λ el, (f, el)) <$> clean (strip kv.2))
         ++ [(f, clean_full (strip kv.2))])%list)
      items
  | AStr s => (((λ el, (f, el)) <$> clean s) ++ [(f, clean_full s)])%list
  | ANone => [(f, "")]
  end.

(** The loop over [fields]; the first attribute that cannot be read ends
    the call. *)
Fixpoint field_terms (o : object) (fields : list string)
    : Result (list (string * string)) :=
  match fields with
  | [] => Ok []
  | f :: rest =>
    match getattr o f with
    | Raise e => Raise e
    | Ok a =>
      match field_terms o rest with
      | Raise e => Raise e
      | Ok ts => Ok (attr_terms f a ++ ts)%list
      end
    end
  end.

(** The final loop: one created row per surviving term. *)
Definition rows_of (o : object) (terms : list (string * string)) : list t :=
  (λ tt : string * string, mk tt.2 tt.1 (class_name o) (id o)) <$>
    filter (λ tt : string * string,
              is_stop_word tt.2 = false ∧ ¬ (String.length tt.2 < 2)%nat)
           terms.

(** [SearchIndex2.index]: the rows created, in order, and the value
    returned. *)
Definition index (o : object) (fields : list string)
    : list t * Result nat :=
  let md := if bool_decide ("metadata" ∈ fields)
            then metadata_terms (get_metadata o) else [] in
  let fields := if bool_decide ("metadata" ∈ fields)
                then remove_first "metadata" fields else fields in
  match field_terms o fields with
  | Raise e => ([], Raise e)
  | Ok ts =>
    let created := rows_of o (md ++ ts)%list in
    (created, Ok (List.length created))
  end.
(** [indigo.util.default_uuid]: the [n]-th identifier it hands out. *)
Class UuidGen := { default_uuid : nat → string }.

(** The [search_index] table: the key [(term, term_type, object_id)] and
    the other columns [object_type] and [id]. *)
Record cols : Type := mkCols { c_object_type : string; c_id : string }.

Record store : Type := mkStore {
  rows : gmap (string * string * string) cols;
  generated : nat
}.

Section Table.
Context {uuids : UuidGen}.

(** [SearchIndex2.create] for one row of [index]. *)
Definition create (r : t) (st : store) : store :=
  mkStore (<[(term r, term_type r, object_id r)
             := mkCols (object_type r) (default_uuid (generated st))]> (rows st))
          (S (generated st)).

(** [index] on the table: the rows are created one after the other. *)
Definition index_rows (o : object) (fields : list string) (st : store)
    : store * Result nat :=
  let '(created, r) := index o fields in
  (foldl (λ st r, create r st) st created, r).

(** [SearchIndex2.reset] *)
Definition reset (id : string) (st : store) : store :=
  mkStore (filter (λ kv : string * string * string * cols, kv.1.2 ≠ id)
                  (rows st))
          (generated st).
End Table.
End SearchIndex2.

(** ** [indigo/models/node.py] *)

Module Node.

Inductive exn : Type :=
| NodeConflictError (address : string)
| MissingKey (key : string)
| ValidationError (column : string).

(** Columns of a row of [node] other than its key [id]. *)
Record cols : Type := mkCols {
  name : string;
  address : string;
  last_update : option Z;
  status : string
}.

Record t : Type := mk { id : string; columns : cols }.

(** The keyword arguments [create] reads. *)
Record kwargs : Type := mkKwargs {
  kw_name : option string;
  kw_address : option string;
  kw_last_update : option Z;
  kw_status : option string
}.

Abbreviation table := (gmap string cols).

(** [cls.objects.filter(name=x)] and [cls.objects.filter(address=x)] *)
Definition filter_name (x : string) (tb : table) : list (string * cols) :=
  filter (λ kv : string * cols, name kv.2 = x) (map_to_list tb).

Definition filter_address (x : string) (tb : table) : list (string * cols) :=
  filter (λ kv : string * cols, address kv.2 = x) (map_to_list tb).

(** [Node.create]: [new_id] is [unicode(uuid.uuid4())], [now] is
    [datetime.now()]. *)
Definition create (new_id : string) (now : Z) (kw : kwargs) (tb : table)
    : (exn + t) * table :=
  match kw_address kw with
  | None => (inl (MissingKey "address"), tb)
  | Some a =>
    if bool_decide (List.length (filter_address a tb) ≠ 0%nat) then
      (inl (NodeConflictError a), tb)
    else
      let last := match kw_last_update kw with
                  | Some z => z
                  | None => now
                  end in
      match kw_name kw with
      | None => (inl (ValidationError "name"), tb)
      | Some n =>
        let c := mkCols n a (Some last) (default "UP" (kw_status kw)) in
        (inr (mk new_id c), <[new_id := c]> tb)
      end
  end.

(** [Node.find] *)
Definition find (name_or_address : string) (tb : table) : option t :=
  match head (filter_name name_or_address tb) with
  | Some kv => Some (mk kv.1 kv.2)
  | None =>
    match head (filter_address name_or_address tb) with
    | Some kv => Some (mk kv.1 kv.2)
    | None => None
    end
  end.

(** No two rows of the table carry the same address. *)
Definition unique_addresses (tb : table) : Prop :=
  ∀ i j r r', tb !! i = Some r → tb !! j = Some r' →
              address r = address r' → i = j.

(** [Node.find_by_id] *)
Definition find_by_id (idstring : string) (tb : table) : option t :=
  mk idstring <$> tb !! idstring.

End Node.

(** ** Reference instances of the collaborators *)

(** Modelled from the spec: [indigo.util.merge] is not among the sources.
    It appends a name to a normalized container path; the root path already
    ends with the separator. *)
Definition util_merge (container name : string) : string :=
  if bool_decide (container = "/") then container +:+ name
  else container +:+ "/" +:+ name.

(** Position-free split at the last separator: the text before it, if there
    is a separator at all, and the text after it. *)
Fixpoint split_last (p : string) : option string * string :=
  match p with
  | EmptyString => (None, EmptyString)
  | String c r =>
    match split_last r with
    | (Some pre, base) => (Some (String c pre), base)
    | (None, base) =>
      if Ascii.eqb c "/" then (Some EmptyString, base)
      else (None, String c base)
    end
  end.

(** Modelled from the spec: [indigo.util.split] is not among the sources.
    It returns the parent path and the basename; the parent of a top-level
    path is the root. *)
Definition util_split (p : string) : string * string :=
  match split_last p with
  | (Some EmptyString, base) => ("/", base)
  | (Some pre, base) => (pre, base)
  | (None, base) => ("", base)
  end.

Definition util_model : Util := {| merge := util_merge; split := util_split |}.

(** Modelled from the spec: [indigo.models.acl] is not among the sources.
    A mask is a set of action bits (read 1, write 2, delete 4, edit 8); the
    three levels are the masks 1, 14 and 15, any other mask is unknown. *)
Definition acl_mask_of (level : string) : Z :=
  if bool_decide (level = "read") then 1
  else if bool_decide (level = "write") then Z.lor 2 (Z.lor 4 8)
  else if bool_decide (level = "read/write") then Z.lor 1 (Z.lor 2 (Z.lor 4 8))
  else 0.

Definition acl_level_of (mask : Z) : string :=
  if mask =? 1 then "read"
  else if mask =? 14 then "write"
  else if mask =? 15 then "read/write"
  else "".

Definition acl_model : AclCodec :=
  {| acemask_to_str m _ := acl_level_of m;
     str_to_acemask l _ := acl_mask_of l |}.

(** A generator that numbers the identifiers it hands out. *)
Definition id_model : IdGen := {| default_cdmi_id n := "id-" +:+ pretty n |}.

(** A directory holding the two groups [g1] and [g2]. *)
Definition group_model : Group.Directory :=
  {| Group.find_by_uuid gid :=
       if bool_decide (gid = "g1") then Some (Group.mk "g1" "staff" "u0")
       else if bool_decide (gid = "g2") then Some (Group.mk "g2" "guests" "u0")
       else None |}.

(** A stand-in archive reader: an archive is the text [name=content] of its
    single entry. *)
Definition zip_model : Zip :=
  {| zip_read archive entry :=
       match SearchIndex2.split_on "=" archive with
       | [n; content] =>
         if bool_decide (n = entry) then Ok content else Raise (KeyError entry)
       | _ => Raise (KeyError entry)
       end |}.

(** ** Stores and principals used in the examples *)

Definition ex_cols (i : string) (acl : gmap string Ace) : TreeEntry.cols :=
  TreeEntry.mkCols (Some i) (Some i) None None ∅ acl.

Definition ex_child (i : string) : TreeEntry.cols :=
  TreeEntry.mkCols (Some i) None None None ∅ ∅.

(** The tree [/], [/a], [/a/b] with the given ACLs on [/] and [/a]. *)
Definition ex_tree (root_acl a_acl : gmap string Ace) : TreeEntry.store :=
  TreeEntry.mkStore
    (<[("/", ".") := ex_cols "r" root_acl]>
     (<[("/", "a/") := ex_child "ia"]>
     (<[("/a", ".") := ex_cols "ia" a_acl]>
     (<[("/a", "b/") := ex_child "ib"]>
     (<[("/a/b", ".") := ex_cols "ib" ∅]> ∅)))))
    0.

(** The store holding the root collection only. *)
Definition ex_root_only : TreeEntry.store :=
  TreeEntry.mkStore {[ ("/", ".") := ex_cols "r" ∅ ]} 0.

(** The collection [/a] of [ex_tree], as [find] returns it. *)
Definition ex_a (a_acl : gmap string Ace) : Collection.t :=
  Collection.init (util := util_model)
    (TreeEntry.mk "/a" "." (ex_cols "ia" a_acl)).

(** The root collection and the collection [/a/b], as [find] returns them. *)
Definition ex_root (acl : gmap string Ace) : Collection.t :=
  Collection.init (util := util_model) (TreeEntry.mk "/" "." (ex_cols "r" acl)).

Definition ex_b : Collection.t :=
  Collection.init (util := util_model)
    (TreeEntry.mk "/a/b" "." (ex_cols "ib" ∅)).

Definition ex_write_g1 : gmap string Ace :=
  {[ "g1" := mkAce "ALLOW" "staff" 0 14 ]}.

(** A data object with the chunks 0 and 2, and a second one in between. *)
Definition ex_chunks : DataObject.store :=
  DataObject.mkStore
    {[ "o1" := {[ "g1" := mkAce "ALLOW" "staff" 0 1 ]} ]}
    (<[("o1", 2) := DataObject.mkChunk "cd" false]>
     (<[("o2", 1) := DataObject.mkChunk "zz" false]>
     (<[("o1", 0) := DataObject.mkChunk "ab" false]>
     (<[("o3", 0) := DataObject.mkChunk "data=xy" true]> ∅)))).

Definition ex_object (u : string) : DataObject.t :=
  DataObject.mk u 0 (DataObject.mkChunk "ab" false) (λ _, PNone).

(** A collection named [the cat sat], whose only metadata value is that
    text too, as the indexer sees it. *)
Definition ex_node : SearchIndex2.object :=
  SearchIndex2.mkObject "Collection" "id1"
    [("title", SearchIndex2.MStr "the cat sat")]
    (λ f, if bool_decide (f = "name")
          then Ok (SearchIndex2.AStr "the cat sat")
          else Raise (AttributeError f)).

Definition ex_admin : User.t := User.mk "u1" "root" true true [].
Definition ex_member : User.t := User.mk "u2" "ann" false true ["g1"].

(** An ACL that grants read to every authenticated user, and a user who
    belongs to the groups [g1] and [g2]. *)
Definition ex_auth_read : gmap string Ace :=
  {[ "AUTHENTICATED@" := mkAce "ALLOW" "AUTHENTICATED@" 0 1 ]}.

Definition ex_member2 : User.t := User.mk "u3" "bob" false true ["g2"; "g1"].

Definition ex_outsider : User.t := User.mk "u4" "eve" false true ["g9"].

(** The values a new data object takes for its static columns, and the
    static columns read back from the store in the examples. *)
Definition ex_defaults : string → pyval :=
  λ f, if bool_decide (f = "size") then PInt 0
       else if bool_decide (f = "type") then PStr "UNKNOWN" else PNone.

(** The directory of [group_model], consulted by name, and a codec of the
    CDMI spelling: no flags, and the masks of the three levels. *)
Definition names_model : GroupNames :=
  {| Group_find gname :=
       if bool_decide (gname = "staff") then Some (Group.mk "g1" "staff" "u0")
       else if bool_decide (gname = "guests")
            then Some (Group.mk "g2" "guests" "u0")
            else None |}.

Definition cdmi_model : CdmiCodec :=
  {| cdmi_str_to_aceflag _ := 0;
     cdmi_str_to_acemask m _ :=
       if bool_decide (m = "READ") then 1
       else if bool_decide (m = "WRITE") then 14
       else if bool_decide (m = "READ, WRITE") then 15 else 0 |}.

(** A CDMI ACE for the principal [who]. *)
Definition ex_cdmi_ace (who : string) : gmap string string :=
  {[ "identifier" := who; "acetype" := "allow"; "aceflags" := "";
     "acemask" := "READ" ]}.

(** A collection whose name mixes cases and separators. *)
Definition ex_mixed : SearchIndex2.object :=
  SearchIndex2.mkObject "Collection" "id2" []
    (λ f, if bool_decide (f = "name")
          then Ok (SearchIndex2.AStr "Annual_Report.PDF of 2015")
          else Raise (AttributeError f)).

(** A table with one node, and the arguments for a second one. *)
Definition ex_nodes : Node.table :=
  {[ "n1" := Node.mkCols "alpha" "10.0.0.1" (Some 1) "UP" ]}.

Definition ex_node_kwargs (name address : string) : Node.kwargs :=
  Node.mkKwargs (Some name) (Some address) None None.

(** * Properties *)

(** ** Rows and keys *)

Lemma count_rows_lookup (k : string * string) (m : TreeEntry.table) :
  TreeEntry.count_rows k m = if m !! k is Some _ then 1%nat else 0%nat.
Proof.
  unfold TreeEntry.count_rows.
  induction m as [|i x m Hi Hfirst IH] using map_first_key_ind.
  - rewrite map_to_list_empty, lookup_empty. reflexivity.
  - rewrite map_to_list_insert_first_key by assumption.
    rewrite filter_cons. destruct (decide (i = k)) as [->|Hne].
    + rewrite decide_True by reflexivity. cbn [List.length].
      rewrite IH, Hi, lookup_insert_eq. reflexivity.
    + rewrite decide_False by (cbn; congruence).
      rewrite IH, lookup_insert_ne by assumption. reflexivity.
Qed.

Lemma dot_not_slashed (s : string) : "." ≠ s +:+ "/".
Proof.
  destruct s as [|a [|b s]]; cbn; intros E; inversion E.
Qed.

Lemma not_own_slashed (s : string) : s ≠ s +:+ "/".
Proof.
  induction s as [|a s IH]; cbn; intros E; [discriminate|].
  injection E as E. exact (IH E).
Qed.

(** ** Finding collections *)

Section CollectionFacts.
Context {util : Util} {codec : AclCodec} {gen : IdGen}.

Lemma find_lookup (p : string) (st : TreeEntry.store) :
  Collection.find p st =
  (λ c, Collection.init (TreeEntry.mk p "." c)) <$> TreeEntry.rows st !! (p, ".").
Proof.
  unfold Collection.find, TreeEntry.filter_first.
  destruct (TreeEntry.rows st !! (p, ".")); reflexivity.
Qed.

Lemma find_is_Some (p : string) (st : TreeEntry.store) :
  is_Some (Collection.find p st) ↔ is_Some (TreeEntry.rows st !! (p, ".")).
Proof. rewrite find_lookup, fmap_is_Some. reflexivity. Qed.

Lemma find_path (p : string) (st : TreeEntry.store) (c : Collection.t) :
  Collection.find p st = Some c →
  Collection.path c = p ∧ Collection.parent c = (split p).1
  ∧ Collection.is_root c = bool_decide (p = "/")
  ∧ (p ≠ "/" → Collection.name c = (split p).2).
Proof.
  rewrite find_lookup. intros Hf.
  apply fmap_Some in Hf as (cols & _ & ->). cbn.
  split; [reflexivity|]. split; [reflexivity|]. split.
  - rewrite bool_decide_eq_true_2 by reflexivity. reflexivity.
  - intros Hp. rewrite (bool_decide_eq_false_2 (p = "/")) by assumption.
    rewrite andb_false_r. reflexivity.
Qed.

Lemma create_success name container metadata now st :
  is_Some (Collection.find container st) →
  Collection.Resource_find (merge container name) st = None →
  Collection.find (merge container name) st = None →
  Collection.create name container metadata now st =
    (Ok (Some (Collection.init
                 (TreeEntry.mk (merge container name) "."
                               (Collection.created_self now st)))),
     TreeEntry.mkStore (Collection.created_rows name container now st)
                       (S (S (TreeEntry.generated st)))).
Proof.
  intros [pc Hpc] Hres Hnone. unfold Collection.create.
  rewrite Hpc, Hres, Hnone. cbn.
  unfold TreeEntry.save, TreeEntry.set_id. cbn.
  rewrite !insert_insert_eq.
  f_equal.
  - rewrite find_lookup. cbn.
    rewrite lookup_insert_ne
      by (intros E; injection E as _ E; exact (dot_not_slashed _ (eq_sym E))).
    rewrite lookup_insert_eq. reflexivity.
Qed.
End CollectionFacts.

(** ** Creating and deleting collections *)

Section TreeFacts.
Context {util : Util} {codec : AclCodec} {gen : IdGen}.

Lemma create_Ok_inv name container metadata now st c st' :
  Collection.create name container metadata now st = (Ok c, st') →
  is_Some (Collection.find container st)
  ∧ Collection.Resource_find (merge container name) st = None
  ∧ Collection.find (merge container name) st = None.
Proof.
  unfold Collection.create.
  destruct (Collection.find container st) as [pc|]; [|discriminate].
  destruct (Collection.Resource_find _ st); [discriminate|].
  destruct (Collection.find (merge container name) st); [discriminate|].
  intros _. eauto.
Qed.

Lemma created_rows_self name container now st :
  Collection.created_rows name container now st !! (merge container name, ".")
  = Some (Collection.created_self now st).
Proof.
  unfold Collection.created_rows.
  rewrite lookup_insert_ne
    by (intros E; injection E as _ E; exact (dot_not_slashed _ (eq_sym E))).
  apply lookup_insert_eq.
Qed.

Lemma created_rows_child name container now st :
  Collection.created_rows name container now st !! (container, name +:+ "/")
  = Some (Collection.created_child st).
Proof. apply lookup_insert_eq. Qed.

Lemma created_rows_other name container now st k :
  k ≠ (merge container name, ".") → k ≠ (container, name +:+ "/") →
  Collection.created_rows name container now st !! k = TreeEntry.rows st !! k.
Proof.
  intros Hk1 Hk2. unfold Collection.created_rows.
  rewrite !lookup_insert_ne by congruence. reflexivity.
Qed.

Lemma delete_partition_lookup c st k :
  TreeEntry.rows (TreeEntry.delete_partition c st) !! k
  = if decide (k.1 = c) then None else TreeEntry.rows st !! k.
Proof.
  unfold TreeEntry.delete_partition. cbn. destruct (decide (k.1 = c)) as [E|E].
  - apply map_lookup_filter_None_2. right. intros x _ Hn. exact (Hn E).
  - destruct (TreeEntry.rows st !! k) as [x|] eqn:Hk.
    + apply map_lookup_filter_Some_2; [exact Hk|exact E].
    + apply map_lookup_filter_None_2. left. exact Hk.
Qed.

(** What [delete] leaves under every key. *)
Lemma delete_lookup (self : Collection.t) st k :
  TreeEntry.rows (Collection.delete self st) !! k
  = if decide (k.1 = Collection.path self) then None
    else if decide (k = (Collection.parent self, Collection.name self +:+ "/"))
         then None
         else TreeEntry.rows st !! k.
Proof.
  unfold Collection.delete, TreeEntry.filter_first.
  set (st1 := TreeEntry.delete_partition (Collection.path self) st).
  set (ck := (Collection.parent self, Collection.name self +:+ "/")).
  assert (Hst1 : ∀ j, TreeEntry.rows st1 !! j
                      = if decide (j.1 = Collection.path self) then None
                        else TreeEntry.rows st !! j)
    by (intros j; apply delete_partition_lookup).
  destruct (TreeEntry.rows st1 !! ck) as [x|] eqn:Hck; cbn.
  - destruct (decide (k = ck)) as [->|Hne].
    + rewrite lookup_delete_eq. destruct (decide _); reflexivity.
    + rewrite lookup_delete_ne by (intros E; apply Hne; symmetry; exact E).
      apply Hst1.
  - rewrite Hst1. destruct (decide (k.1 = _)) as [|Hp]; [reflexivity|].
    destruct (decide (k = ck)) as [->|]; [|reflexivity].
    rewrite Hst1 in Hck. rewrite decide_False in Hck by exact Hp.
    exact Hck.
Qed.
End TreeFacts.

(** C3: tree pairing invariant.  For a path [P = merge container name] other
    than the root on which the path algebra round-trips, a successful
    [create] leaves exactly one self record [(P, ".")] and exactly one child
    record [(parent P, basename P + "/")], both carrying the same generated
    id; after [delete] of the collection found at [P], in any store, neither
    record exists. *)
Theorem tree_pairing_invariant {util : Util} {codec : AclCodec} {gen : IdGen}
    (name container : string) (metadata : option (gmap string string))
    (now : Z) (st st' : TreeEntry.store) (c : option Collection.t) :
  split (merge container name) = (container, name) →
  merge container name ≠ "/" →
  Collection.create name container metadata now st = (Ok c, st') →
  (∃ self child : TreeEntry.cols,
      TreeEntry.rows st' !! Collection.self_key (merge container name) = Some self
      ∧ TreeEntry.rows st' !! Collection.child_key (merge container name)
        = Some child
      ∧ TreeEntry.count_rows (Collection.self_key (merge container name))
          (TreeEntry.rows st') = 1%nat
      ∧ TreeEntry.count_rows (Collection.child_key (merge container name))
          (TreeEntry.rows st') = 1%nat
      ∧ is_Some (TreeEntry.id self)
      ∧ TreeEntry.id child = TreeEntry.id self)
  ∧ (∀ (st2 : TreeEntry.store) (c2 : Collection.t),
        Collection.find (merge container name) st2 = Some c2 →
        TreeEntry.count_rows (Collection.self_key (merge container name))
          (TreeEntry.rows (Collection.delete c2 st2)) = 0%nat
        ∧ TreeEntry.count_rows (Collection.child_key (merge container name))
            (TreeEntry.rows (Collection.delete c2 st2)) = 0%nat).
Proof.
  intros Hsplit Hroot Hcreate.
  destruct (create_Ok_inv _ _ _ _ _ _ _ Hcreate) as (Hpc & Hres & Hnone).
  rewrite (create_success _ _ metadata now _ Hpc Hres Hnone) in Hcreate.
  injection Hcreate as _ <-. cbn [TreeEntry.rows].
  unfold Collection.self_key, Collection.child_key.
  rewrite Hsplit. cbn [fst snd]. split.
  - exists (Collection.created_self now st), (Collection.created_child st).
    rewrite !count_rows_lookup, created_rows_self, created_rows_child.
    repeat split; eauto.
  - intros st2 c2 Hfind.
    destruct (find_path _ _ _ Hfind) as (Hp & Hpar & _ & Hname).
    specialize (Hname Hroot). rewrite Hsplit in Hpar, Hname. cbn in Hpar, Hname.
    rewrite !count_rows_lookup, !delete_lookup, Hp, Hpar, Hname. cbn [fst].
    rewrite decide_True by reflexivity.
    destruct (decide (container = merge container name)); [done|].
    rewrite decide_True by reflexivity. done.
Qed.

Lemma tree_pairing_invariant_witness :
  let run := Collection.create (util := util_model) (gen := id_model)
               "x" "/" None 7 ex_root_only in
  ∃ self child : TreeEntry.cols,
    TreeEntry.rows run.2 !! ("/x", ".") = Some self
    ∧ TreeEntry.rows run.2 !! ("/", "x/") = Some child
    ∧ TreeEntry.id child = TreeEntry.id self.
Proof.
  intros run.
  destruct (tree_pairing_invariant (util := util_model) (codec := acl_model)
              (gen := id_model) "x" "/" None 7 ex_root_only run.2
              (Collection.find (util := util_model) "/x" run.2))
    as [(self & child & Hs & Hc & _ & _ & _ & Hid) _].
  - reflexivity.
  - discriminate.
  - vm_compute. reflexivity.
  - exists self, child. split; [exact Hs|]. split; [exact Hc|exact Hid].
Defined.

(** C4: outcomes of [create].  On a path where the path algebra
    round-trips: a parent without self record gives [NoSuchCollectionError];
    otherwise an object row under the target name gives
    [ResourceConflictError]; otherwise a self record at the target path
    gives [CollectionConflictError]; a failed call leaves the store as it
    was.  Otherwise the call returns the collection found at the new path,
    the self record and the parent's child record carry one generated id,
    and a second [create] of the same collection fails with
    [CollectionConflictError]. *)
Theorem create_outcomes {util : Util} {codec : AclCodec} {gen : IdGen}
    (name container : string) (metadata : option (gmap string string))
    (now : Z) (st : TreeEntry.store) :
  split (merge container name) = (container, name) →
  (Collection.find container st = None →
     Collection.create name container metadata now st
     = (Raise (NoSuchCollectionError container), st))
  ∧ (is_Some (Collection.find container st) →
     is_Some (TreeEntry.rows st !! (container, name)) →
     Collection.create name container metadata now st
     = (Raise (ResourceConflictError container), st))
  ∧ (is_Some (Collection.find container st) →
     TreeEntry.rows st !! (container, name) = None →
     is_Some (Collection.find (merge container name) st) →
     Collection.create name container metadata now st
     = (Raise (CollectionConflictError container), st))
  ∧ (is_Some (Collection.find container st) →
     TreeEntry.rows st !! (container, name) = None →
     Collection.find (merge container name) st = None →
     ∃ (c : Collection.t) (st' : TreeEntry.store) (i : string)
       (self child : TreeEntry.cols),
       Collection.create name container metadata now st = (Ok (Some c), st')
       ∧ Collection.find (merge container name) st' = Some c
       ∧ Collection.path c = merge container name
       ∧ Collection._id c = Some i
       ∧ TreeEntry.rows st' !! Collection.self_key (merge container name)
         = Some self
       ∧ TreeEntry.rows st' !! Collection.child_key (merge container name)
         = Some child
       ∧ TreeEntry.id self = Some i
       ∧ TreeEntry.id child = Some i
       ∧ (∀ k, k ≠ Collection.self_key (merge container name) →
               k ≠ Collection.child_key (merge container name) →
               TreeEntry.rows st' !! k = TreeEntry.rows st !! k)
       ∧ ∀ metadata' now',
           Collection.create name container metadata' now' st'
           = (Raise (CollectionConflictError container), st')).
Proof.
  intros Hsplit.
  assert (Hres : ∀ s, Collection.Resource_find (merge container name) s
                      = TreeEntry.mk container name
                          <$> TreeEntry.rows s !! (container, name)).
  { intros s. unfold Collection.Resource_find. rewrite Hsplit. reflexivity. }
  split; [|split; [|split]].
  - intros Hp. unfold Collection.create. rewrite Hp. reflexivity.
  - intros [pc Hpc] [x Hx]. unfold Collection.create.
    rewrite Hpc, Hres, Hx. reflexivity.
  - intros [pc Hpc] Hx [c Hc]. unfold Collection.create.
    rewrite Hpc, Hres, Hx, Hc. reflexivity.
  - intros Hpc Hx Hnone.
    assert (Hres0 : Collection.Resource_find (merge container name) st = None)
      by (rewrite Hres, Hx; reflexivity).
    pose proof (create_success name container metadata now st Hpc Hres0 Hnone)
      as Hrun.
    set (st' := TreeEntry.mkStore
                  (Collection.created_rows name container now st)
                  (S (S (TreeEntry.generated st)))) in *.
    assert (Hne : container ≠ merge container name).
    { intros E. rewrite <- E in Hnone. destruct Hpc as [pc Hpc]. congruence. }
    eexists _, st', (default_cdmi_id (TreeEntry.generated st)),
      (Collection.created_self now st), (Collection.created_child st).
    unfold Collection.self_key, Collection.child_key.
    rewrite Hsplit. cbn [fst snd].
    split; [exact Hrun|]. split.
    { rewrite find_lookup. cbn [TreeEntry.rows st'].
      rewrite created_rows_self. reflexivity. }
    split; [reflexivity|]. split; [reflexivity|].
    split; [apply created_rows_self|]. split; [apply created_rows_child|].
    split; [reflexivity|]. split; [reflexivity|].
    split; [intros k Hk1 Hk2; apply created_rows_other; assumption|].
    intros metadata' now'. unfold Collection.create.
    assert (Hpc' : is_Some (Collection.find container st')).
    { apply find_is_Some. cbn [TreeEntry.rows st'].
      rewrite created_rows_other.
      - apply find_is_Some. exact Hpc.
      - congruence.
      - intros E. injection E as E. exact (dot_not_slashed _ E). }
    destruct Hpc' as [pc' ->]. rewrite Hres. cbn [TreeEntry.rows st'].
    rewrite created_rows_other, Hx; cbn.
    + rewrite find_lookup. cbn [TreeEntry.rows st'].
      rewrite created_rows_self. reflexivity.
    + congruence.
    + intros E. injection E as E. exact (not_own_slashed _ E).
Qed.

Lemma create_outcomes_witness :
  ∃ (c : Collection.t) (st' : TreeEntry.store),
    Collection.create (util := util_model) (gen := id_model)
      "x" "/" None 7 ex_root_only = (Ok (Some c), st')
    ∧ Collection.create (util := util_model) (gen := id_model)
        "x" "/" None 8 st' = (Raise (CollectionConflictError "/"), st').
Proof.
  destruct (create_outcomes (util := util_model) (codec := acl_model)
              (gen := id_model) "x" "/" None 7 ex_root_only)
    as (_ & _ & _ & Hnew).
  - reflexivity.
  - destruct Hnew as (c & st' & i & self & child & Hrun & _ & _ & _ & _ & _
                      & _ & _ & _ & Htwice).
    + vm_compute. eauto.
    + reflexivity.
    + reflexivity.
    + exists c, st'. split; [exact Hrun|apply Htwice].
Defined.

(** C7 (as the code behaves): [delete] of the collection found at a path
    [p] other than the root removes every row whose container is [p], the
    self record and the child records listed under it alike, and the child
    record in the parent; a row with another container that is not that
    child record, such as the self record of a descendant, is unchanged. *)
Theorem delete_frame {util : Util} {codec : AclCodec} {gen : IdGen}
    (p : string) (self : Collection.t) (st : TreeEntry.store) :
  Collection.find p st = Some self →
  p ≠ "/" →
  TreeEntry.rows (Collection.delete self st) !! Collection.self_key p = None
  ∧ TreeEntry.rows (Collection.delete self st) !! Collection.child_key p = None
  ∧ (∀ k, k.1 = p → TreeEntry.rows (Collection.delete self st) !! k = None)
  ∧ (∀ k, k.1 ≠ p → k ≠ Collection.child_key p →
          TreeEntry.rows (Collection.delete self st) !! k
          = TreeEntry.rows st !! k).
Proof.
  intros Hfind Hroot.
  destruct (find_path _ _ _ Hfind) as (Hp & Hpar & _ & Hname).
  specialize (Hname Hroot).
  assert (Hck : (Collection.parent self, Collection.name self +:+ "/")
                = Collection.child_key p)
    by (unfold Collection.child_key; rewrite Hpar, Hname; reflexivity).
  split; [|split; [|split]].
  - rewrite delete_lookup, Hp. cbn. rewrite decide_True; reflexivity.
  - rewrite delete_lookup, Hck. destruct (decide _); [reflexivity|].
    rewrite decide_True; reflexivity.
  - intros k Hk. rewrite delete_lookup, Hp, decide_True; [reflexivity|exact Hk].
  - intros k Hk1 Hk2. rewrite delete_lookup, Hp, Hck.
    rewrite decide_False by exact Hk1. rewrite decide_False by exact Hk2.
    reflexivity.
Qed.

Lemma delete_frame_witness :
  TreeEntry.rows (Collection.delete (ex_a ∅) (ex_tree ∅ ∅)) !! ("/a/b", ".")
  = Some (ex_cols "ib" ∅).
Proof.
  destruct (delete_frame (util := util_model) (codec := acl_model)
              (gen := id_model) "/a" (ex_a ∅) (ex_tree ∅ ∅))
    as (_ & _ & _ & Hframe).
  - vm_compute. reflexivity.
  - discriminate.
  - rewrite Hframe.
    + vm_compute. reflexivity.
    + vm_compute. discriminate.
    + vm_compute. discriminate.
Defined.

(** C7, as stated, fails: deleting [/a] also removes the row [(/a, b/)],
    which is neither the self record of [/a] nor its child record in the
    root. *)
Lemma delete_frame_counterexample :
  Collection.find (util := util_model) "/a" (ex_tree ∅ ∅) = Some (ex_a ∅)
  ∧ ¬ (∀ k : string * string,
         k ≠ Collection.self_key "/a" →
         k ≠ Collection.child_key (util := util_model) "/a" →
         TreeEntry.rows (Collection.delete (ex_a ∅) (ex_tree ∅ ∅)) !! k
         = TreeEntry.rows (ex_tree ∅ ∅) !! k).
Proof.
  split; [vm_compute; reflexivity|].
  intros Hall. specialize (Hall ("/a", "b/")).
  assert (Hgone : TreeEntry.rows (Collection.delete (ex_a ∅) (ex_tree ∅ ∅))
                    !! ("/a", "b/") = None) by (vm_compute; reflexivity).
  rewrite Hgone in Hall.
  assert (Hthere : TreeEntry.rows (ex_tree ∅ ∅) !! ("/a", "b/")
                   = Some (ex_child "ib")) by (vm_compute; reflexivity).
  rewrite Hthere in Hall.
  discriminate Hall; vm_compute; discriminate.
Qed.

(** ** Permission resolution *)

Section ResolverFacts.
Context {util : Util} {codec : AclCodec} {gen : IdGen}.

Lemma grant_mono (acl : gmap string Ace) (actions : gset string) gid :
  actions ⊆ Collection.grant acl actions gid.
Proof.
  unfold Collection.grant. destruct (acl !! gid); [|reflexivity].
  repeat destruct (bool_decide _); try reflexivity; apply union_subseteq_r.
Qed.

Lemma foldl_grant_mono (acl : gmap string Ace) l (actions : gset string) :
  actions ⊆ foldl (Collection.grant acl) actions l.
Proof.
  revert actions. induction l as [|g l IH]; intros actions; cbn; [reflexivity|].
  etrans; [apply grant_mono|apply IH].
Qed.

Lemma grant_write (acl : gmap string Ace) (actions : gset string) gid ace :
  acl !! gid = Some ace →
  acemask_to_str (acemask ace) false = "write" →
  {[ "write"; "delete"; "edit" ]} ⊆ Collection.grant acl actions gid.
Proof.
  intros Hg Hw. unfold Collection.grant. rewrite Hg, Hw.
  rewrite bool_decide_eq_false_2 by discriminate.
  rewrite bool_decide_eq_true_2 by reflexivity. apply union_subseteq_l.
Qed.

Lemma foldl_grant_write (acl : gmap string Ace) l (actions : gset string) gid ace :
  gid ∈ l →
  acl !! gid = Some ace →
  acemask_to_str (acemask ace) false = "write" →
  {[ "write"; "delete"; "edit" ]} ⊆ foldl (Collection.grant acl) actions l.
Proof.
  intros Hin Hg Hw. revert actions.
  induction l as [|g l IH]; intros actions; [inversion Hin|].
  cbn. apply elem_of_cons in Hin as [<-|Hin].
  - etrans; [exact (grant_write acl actions gid ace Hg Hw)|].
    apply foldl_grant_mono.
  - apply IH. exact Hin.
Qed.

(** A collection with an ACL of its own is resolved from that ACL alone. *)
Lemma resolve_own_acl fuel st (self : Collection.t) user :
  Collection.acl self ≠ ∅ →
  Collection.get_authorized_actions (S fuel) st self user
  = Some (Ok (foldl (Collection.grant (Collection.acl self)) ∅
                (User.groups user ++ ["AUTHENTICATED@"])%list)).
Proof.
  intros Hacl. cbn. rewrite bool_decide_eq_false_2 by exact Hacl. reflexivity.
Qed.

(** A collection without ACL that is not the root hands over to the
    collection found at its parent path. *)
Lemma resolve_inherit fuel st (self : Collection.t) user :
  Collection.acl self = ∅ →
  Collection.is_root self = false →
  Collection.get_authorized_actions (S fuel) st self user
  = match Collection.find (Collection.parent self) st with
    | None => Some (Raise (AttributeError "get_authorized_actions"))
    | Some parent_container =>
      Collection.get_authorized_actions fuel st parent_container user
    end.
Proof.
  intros Hacl Hroot. cbn.
  rewrite bool_decide_eq_true_2 by exact Hacl. rewrite Hroot. reflexivity.
Qed.

Lemma resolve_groups_only fuel st (self : Collection.t) (u u' : User.t) :
  User.groups u = User.groups u' →
  Collection.get_authorized_actions fuel st self u
  = Collection.get_authorized_actions fuel st self u'.
Proof.
  intros Hg. revert self. induction fuel as [|fuel IH]; intros self; cbn;
    [reflexivity|].
  rewrite Hg. case_bool_decide; [|reflexivity].
  destruct (Collection.is_root self); [reflexivity|].
  destruct (Collection.find _ st); [apply IH|reflexivity].
Qed.
End ResolverFacts.

(** C2 (as the code behaves): the administrator flag is consulted by
    [user_can] alone, which answers [True] for every node and action
    whatever the ACLs hold; [get_authorized_actions] never reads the flag,
    its result for an administrator is the one for the same user without
    the flag. *)
Theorem admin_bypass {util : Util} {codec : AclCodec} {gen : IdGen}
    (fuel : nat) (st : TreeEntry.store) (self : Collection.t)
    (user : User.t) (action : string) :
  User.administrator user = true →
  Collection.user_can fuel st self user action = Some (Ok true)
  ∧ Collection.get_authorized_actions fuel st self user
    = Collection.get_authorized_actions fuel st self
        (User.mk (User.id user) (User.username user) false
                 (User.active user) (User.groups user)).
Proof.
  intros Hadmin. split.
  - unfold Collection.user_can. rewrite Hadmin. reflexivity.
  - apply resolve_groups_only. reflexivity.
Qed.

Lemma admin_bypass_witness :
  Collection.user_can (util := util_model) (codec := acl_model)
    1 ex_root_only (ex_root ∅) ex_admin "delete" = Some (Ok true).
Proof.
  apply (admin_bypass (util := util_model) (codec := acl_model)
           (gen := id_model) 1 ex_root_only (ex_root ∅) ex_admin "delete").
  reflexivity.
Defined.

(** C2, as stated, fails: for an administrator who belongs to no group, the
    resolver returns the empty set on a root without ACL, at every bound. *)
Lemma admin_resolver_counterexample :
  User.administrator ex_admin = true
  ∧ Collection.get_authorized_actions (util := util_model) (codec := acl_model)
      1 ex_root_only (ex_root ∅) ex_admin = Some (Ok ∅)
  ∧ ∀ fuel,
      Collection.get_authorized_actions (util := util_model)
        (codec := acl_model) fuel ex_root_only (ex_root ∅) ex_admin
      ≠ Some (Ok {[ "read"; "write"; "delete"; "edit" ]}).
Proof.
  split; [reflexivity|]. split; [reflexivity|].
  intros [|fuel]; [discriminate|].
  change (Some (Ok (∅ : gset string))
          ≠ Some (Ok {[ "read"; "write"; "delete"; "edit" ]})).
  intros E.
  pose proof (f_equal (λ r : option (Result (gset string)),
                         match r with Some (Ok s) => s | _ => ∅ end) E) as E'.
  change ((∅ : gset string) = {[ "read"; "write"; "delete"; "edit" ]}) in E'.
  assert (Hin : "read" ∈ (∅ : gset string)) by (rewrite E'; set_solver).
  set_solver.
Qed.

(** C5: ACL inheritance.  (i) A collection without ACL, not the root, whose
    parent's ACL grants level [write] to a group of the user resolves to a
    set containing write, delete and edit.  (ii) The root without ACL
    resolves to the empty set for every user.  (iii) A collection with an
    ACL of its own resolves from that ACL alone: the result is the same in
    every store, so nothing of an ancestor is merged in. *)
Theorem acl_inheritance {util : Util} {codec : AclCodec} {gen : IdGen} :
  (∀ fuel st (child parent_container : Collection.t) (user : User.t)
     (G : string) (ace : Ace),
      Collection.acl child = ∅ →
      Collection.is_root child = false →
      Collection.find (Collection.parent child) st = Some parent_container →
      Collection.acl parent_container !! G = Some ace →
      acemask_to_str (acemask ace) false = "write" →
      G ∈ User.groups user →
      ∃ actions : gset string,
        Collection.get_authorized_actions (S (S fuel)) st child user
        = Some (Ok actions)
        ∧ {[ "write"; "delete"; "edit" ]} ⊆ actions)
  ∧ (∀ fuel st (root : Collection.t) (user : User.t),
      Collection.acl root = ∅ →
      Collection.is_root root = true →
      Collection.get_authorized_actions (S fuel) st root user = Some (Ok ∅))
  ∧ (∀ fuel fuel' st st' (self : Collection.t) (user : User.t),
      Collection.acl self ≠ ∅ →
      Collection.get_authorized_actions (S fuel) st self user
      = Collection.get_authorized_actions (S fuel') st' self user
      ∧ ∃ actions : gset string,
          Collection.get_authorized_actions (S fuel) st self user
          = Some (Ok actions)
          ∧ ∀ a, a ∈ actions →
                 ∃ gid, gid ∈ (User.groups user ++ ["AUTHENTICATED@"])%list
                        ∧ is_Some (Collection.acl self !! gid)).
Proof.
  split; [|split].
  - intros fuel st child pc user G ace Hacl Hroot Hfind HG Hw Hin.
    rewrite resolve_inherit, Hfind by assumption.
    assert (Hne : Collection.acl pc ≠ ∅).
    { intros E. rewrite E, lookup_empty in HG. discriminate. }
    rewrite resolve_own_acl by exact Hne.
    eexists. split; [reflexivity|].
    apply (foldl_grant_write _ _ _ G ace); [|exact HG|exact Hw].
    apply elem_of_app. left. exact Hin.
  - intros fuel st root user Hacl Hroot. cbn.
    rewrite bool_decide_eq_true_2 by exact Hacl. rewrite Hroot. reflexivity.
  - intros fuel fuel' st st' self user Hacl.
    rewrite !resolve_own_acl by exact Hacl. split; [reflexivity|].
    eexists. split; [reflexivity|].
    generalize (User.groups user ++ ["AUTHENTICATED@"])%list as l.
    intros l a.
    assert (Hgen : ∀ acc : gset string,
               a ∈ foldl (Collection.grant (Collection.acl self)) acc l →
               a ∈ acc ∨ ∃ gid, gid ∈ l
                                ∧ is_Some (Collection.acl self !! gid)).
    { induction l as [|g l IH]; intros acc; cbn; [auto|].
      intros Ha. destruct (IH _ Ha) as [Hacc|(gid & Hgid & Hsome)].
      - unfold Collection.grant in Hacc.
        destruct (Collection.acl self !! g) eqn:Hg; [|auto].
        destruct (decide (a ∈ acc)); [auto|].
        right. exists g. split; [left|]. rewrite Hg. eauto.
      - right. exists gid. split; [right; exact Hgid|exact Hsome]. }
    intros Ha. destruct (Hgen ∅ Ha) as [Hempty|Hex]; [set_solver|exact Hex].
Qed.

Lemma acl_inheritance_witness :
  ∃ actions : gset string,
    Collection.get_authorized_actions (util := util_model) (codec := acl_model)
      2 (ex_tree ∅ ex_write_g1) ex_b ex_member = Some (Ok actions)
    ∧ {[ "write"; "delete"; "edit" ]} ⊆ actions.
Proof.
  destruct (acl_inheritance (util := util_model) (codec := acl_model)
              (gen := id_model)) as (Hinherit & _ & _).
  apply (Hinherit 0%nat (ex_tree ∅ ex_write_g1) ex_b (ex_a ex_write_g1)
           ex_member "g1" (mkAce "ALLOW" "staff" 0 14)).
  - reflexivity.
  - reflexivity.
  - vm_compute. reflexivity.
  - vm_compute. reflexivity.
  - reflexivity.
  - vm_compute. left.
Defined.

(** C10: for the collection found at a path [p] other than the root and
    without ACL, the resolver looks up the parent path and runs on the
    result with no check that it was found, so an absent parent ends the
    call with an exception.  When the ancestors of [p] up to the root, which
    is its [d]-th ancestor, all have a self record, that branch is never
    taken: every bound above [d] gives an action set. *)
Theorem resolver_parent_lookup {util : Util} {codec : AclCodec} {gen : IdGen}
    (st : TreeEntry.store) (p : string) (self : Collection.t)
    (user : User.t) :
  Collection.find p st = Some self →
  (Collection.acl self = ∅ → p ≠ "/" →
     ∀ fuel,
       Collection.get_authorized_actions (S fuel) st self user
       = match Collection.find (split p).1 st with
         | None => Some (Raise (AttributeError "get_authorized_actions"))
         | Some parent_container =>
           Collection.get_authorized_actions fuel st parent_container user
         end)
  ∧ (∀ d : nat,
       Collection.ancestor d p = "/" →
       (∀ k : nat, (1 ≤ k ≤ d)%nat →
          is_Some (TreeEntry.rows st
                     !! Collection.self_key (Collection.ancestor k p))) →
       ∀ fuel : nat, (d < fuel)%nat →
         ∃ actions : gset string,
           Collection.get_authorized_actions fuel st self user
           = Some (Ok actions)).
Proof.
  intros Hfind. split.
  - intros Hacl Hroot fuel.
    destruct (find_path _ _ _ Hfind) as (_ & Hpar & Hisroot & _).
    rewrite resolve_inherit, Hpar; [reflexivity|exact Hacl|].
    rewrite Hisroot. apply bool_decide_eq_false_2. exact Hroot.
  - intros d. revert p self Hfind.
    induction d as [|d IH]; intros p self Hfind Hd Hanc fuel Hfuel;
      (destruct fuel as [|fuel]; [lia|]);
      destruct (find_path _ _ _ Hfind) as (_ & Hpar & Hisroot & _).
    + cbn in Hd. rewrite bool_decide_eq_true_2 in Hisroot by exact Hd.
      destruct (decide (Collection.acl self = ∅)) as [Hacl|Hacl];
        [|rewrite resolve_own_acl by exact Hacl; eauto].
      cbn. rewrite bool_decide_eq_true_2 by exact Hacl. rewrite Hisroot. eauto.
    + destruct (decide (Collection.acl self = ∅)) as [Hacl|Hacl];
        [|rewrite resolve_own_acl by exact Hacl; eauto].
      destruct (Collection.is_root self) eqn:Hr.
      { cbn. rewrite bool_decide_eq_true_2 by exact Hacl. rewrite Hr. eauto. }
      rewrite resolve_inherit, Hpar by assumption.
      assert (Hparent : is_Some (Collection.find (split p).1 st)).
      { apply find_is_Some. apply (Hanc 1%nat). lia. }
      destruct Hparent as [pc Hpc]. rewrite Hpc.
      apply (IH (split p).1 pc Hpc).
      * exact Hd.
      * intros k Hk. apply (Hanc (S k)). lia.
      * lia.
Qed.

Lemma resolver_parent_lookup_witness :
  ∃ actions : gset string,
    Collection.get_authorized_actions (util := util_model) (codec := acl_model)
      3 (ex_tree ∅ ∅) ex_b ex_member = Some (Ok actions).
Proof.
  destruct (resolver_parent_lookup (util := util_model) (codec := acl_model)
              (gen := id_model) (ex_tree ∅ ∅) "/a/b" ex_b ex_member)
    as [_ Htotal].
  - vm_compute. reflexivity.
  - apply (Htotal 2%nat).
    + reflexivity.
    + intros k Hk.
      assert (Hcases : k = 1%nat ∨ k = 2%nat) by lia.
      destruct Hcases as [-> | ->]; vm_compute; eauto.
    + lia.
Defined.

(** ** Chunked content *)

#[local] Instance seq_le_trans : Transitive DataObject.seq_le.
Proof. intros a b c. unfold DataObject.seq_le. lia. Qed.

#[local] Instance seq_le_total : Total DataObject.seq_le.
Proof. intros a b. unfold DataObject.seq_le. lia. Qed.

Lemma objects_filter_elem (u : string) (st : DataObject.store) n c :
  (n, c) ∈ DataObject.objects_filter u st
  ↔ DataObject.chunks st !! (u, n) = Some c.
Proof.
  unfold DataObject.objects_filter.
  rewrite merge_sort_Permutation, list_elem_of_fmap. split.
  - intros ([[u' n'] c'] & E & Hin). cbn in E. injection E as -> ->.
    apply list_elem_of_filter in Hin as [Hu Hin]. cbn in Hu. subst u'.
    apply elem_of_map_to_list. exact Hin.
  - intros Hl. exists (u, n, c). split; [reflexivity|].
    apply list_elem_of_filter. split; [reflexivity|].
    apply elem_of_map_to_list. exact Hl.
Qed.

Lemma objects_filter_NoDup (u : string) (st : DataObject.store) :
  NoDup (DataObject.objects_filter u st).
Proof.
  unfold DataObject.objects_filter. rewrite merge_sort_Permutation.
  apply NoDup_fmap_2_strong.
  - intros [[u1 n1] c1] [[u2 n2] c2] H1 H2 E. cbn in E. injection E as -> ->.
    apply list_elem_of_filter in H1 as [E1 _], H2 as [E2 _].
    cbn in E1, E2. congruence.
  - apply NoDup_filter, NoDup_map_to_list.
Qed.

Lemma strictly_ascending (l : list (Z * DataObject.chunk)) :
  StronglySorted DataObject.seq_le l →
  NoDup l →
  (∀ a b, a ∈ l → b ∈ l → a.1 = b.1 → a = b) →
  StronglySorted (λ a b, a.1 < b.1) l.
Proof.
  induction 1 as [|a l Hs IH Hall]; intros Hnd Hfun; constructor.
  - apply IH.
    + apply NoDup_cons in Hnd as [_ Hnd]. exact Hnd.
    + intros x y Hx Hy. apply Hfun; right; assumption.
  - apply NoDup_cons in Hnd as [Hnotin _].
    apply Forall_forall. intros b Hb.
    rewrite Forall_forall in Hall. specialize (Hall b Hb).
    unfold DataObject.seq_le in Hall.
    destruct (decide (a.1 = b.1)) as [E|E]; [|lia].
    exfalso. apply Hnotin.
    rewrite (Hfun a b); [exact Hb|left|right; exact Hb|exact E].
Qed.

Lemma objects_filter_ascending (u : string) (st : DataObject.store) :
  StronglySorted (λ a b, a.1 < b.1) (DataObject.objects_filter u st).
Proof.
  apply strictly_ascending.
  - apply StronglySorted_merge_sort; apply _.
  - apply objects_filter_NoDup.
  - intros [n c] [n' c'] Ha Hb E. cbn in E. subst n'.
    apply objects_filter_elem in Ha, Hb. congruence.
Qed.

Section ChunkFacts.
Context {codec : AclCodec} {dir : Group.Directory} {zip : Zip}.

Lemma drain_readable (entries : list (Z * DataObject.chunk)) :
  Forall DataObject.readable entries →
  ∃ ys, DataObject.drain entries = (ys, None)
        ∧ Forall2 DataObject.yields entries ys.
Proof.
  induction 1 as [|entry rest Hr _ (ys & Hys & Hall)]; cbn.
  - exists []. split; [reflexivity|constructor].
  - unfold DataObject.readable in Hr. rewrite Hys.
    destruct (DataObject.compressed entry.2) eqn:Hc.
    + destruct (Hr eq_refl) as [content Hz]. rewrite Hz.
      exists (content :: ys). split; [reflexivity|].
      constructor; [|exact Hall]. unfold DataObject.yields. rewrite Hc. exact Hz.
    + exists (DataObject.blob entry.2 :: ys). split; [reflexivity|].
      constructor; [|exact Hall]. unfold DataObject.yields. rewrite Hc.
      reflexivity.
Qed.
End ChunkFacts.

(** C6: chunk reconstruction.  The rows [chunk_content] walks through are
    exactly the chunks stored under the object's uuid, in strictly ascending
    [sequence_number] order whatever gaps the numbers have; when each
    compressed chunk is an archive holding an entry [data], the generator
    ends normally and yields one value per row, in that order: the entry
    [data] for a compressed row, the raw blob for the others. *)
Theorem chunk_reconstruction {codec : AclCodec} {dir : Group.Directory}
    {zip : Zip} (self : DataObject.t) (st : DataObject.store) :
  Forall DataObject.readable
         (DataObject.objects_filter (DataObject.uuid self) st) →
  StronglySorted (λ a b : Z * DataObject.chunk, a.1 < b.1)
                 (DataObject.objects_filter (DataObject.uuid self) st)
  ∧ (∀ n c, (n, c) ∈ DataObject.objects_filter (DataObject.uuid self) st
            ↔ DataObject.chunks st !! (DataObject.uuid self, n) = Some c)
  ∧ ∃ ys : list string,
      DataObject.chunk_content self st = (ys, None)
      ∧ Forall2 DataObject.yields
                (DataObject.objects_filter (DataObject.uuid self) st) ys.
Proof.
  intros Hread. split; [apply objects_filter_ascending|].
  split; [intros n c; apply objects_filter_elem|].
  apply drain_readable. exact Hread.
Qed.

Lemma chunk_reconstruction_witness :
  ∃ ys : list string,
    DataObject.chunk_content (zip := zip_model) (ex_object "o3") ex_chunks
    = (ys, None)
    ∧ Forall2 (DataObject.yields (zip := zip_model))
              (DataObject.objects_filter "o3" ex_chunks) ys.
Proof.
  apply (chunk_reconstruction (codec := acl_model) (dir := group_model)
           (zip := zip_model) (ex_object "o3") ex_chunks).
  vm_compute. repeat constructor. intros _. exists "xy". reflexivity.
Defined.

(** The chunks 0 and 2 of one object come back as their blobs, in that
    order; a compressed chunk comes back as the entry [data] of its
    archive. *)
Example chunk_content_example :
  DataObject.chunk_content (zip := zip_model) (ex_object "o1") ex_chunks
  = (["ab"; "cd"], None)
  ∧ DataObject.chunk_content (zip := zip_model) (ex_object "o3") ex_chunks
    = (["xy"], None).
Proof. split; vm_compute; reflexivity. Qed.

(** ** Updating a data object *)

Section UpdateFacts.
Context {codec : AclCodec} {dir : Group.Directory} {zip : Zip}.

(** Static fields are routed to the statement keyed on the uuid alone. *)
Lemma update_static_fields (self : DataObject.t) kwargs :
  Forall (λ kv : string * pyval, kv.1 ∈ DataObject.static_fields) kwargs →
  DataObject.update self kwargs
  = ((λ kv : string * pyval,
        UpdateWhereUuid kv.1 kv.2 (PStr (DataObject.uuid self))) <$> kwargs,
     Ok ()).
Proof.
  induction 1 as [|[arg v] rest Hin _ IH]; [reflexivity|].
  cbn in Hin. cbn [DataObject.update].
  rewrite bool_decide_eq_true_2 by exact Hin. rewrite IH. reflexivity.
Qed.

(** The first field outside the static set ends the call: the attribute
    [container] does not exist on a data object. *)
Lemma update_chunk_field_raises (self : DataObject.t) arg v rest :
  arg ∉ DataObject.static_fields →
  DataObject.update self ((arg, v) :: rest)
  = ([], Raise (AttributeError "container")).
Proof.
  intros Hout. cbn [DataObject.update].
  rewrite bool_decide_eq_false_2 by exact Hout. reflexivity.
Qed.

Lemma access_of_absent (rd wr : list string) (gid : string) :
  gid ∉ rd → gid ∉ wr → DataObject.access_of rd wr !! gid = None.
Proof.
  intros Hrd Hwr. unfold DataObject.access_of.
  assert (Hread : ∀ acc : gmap string string,
             acc !! gid = None →
             foldl (λ (acc : gmap string string) g, <[g := "read"]> acc)
                   acc rd !! gid = None).
  { induction rd as [|g rd IH]; intros acc Hacc; cbn; [exact Hacc|].
    apply not_elem_of_cons in Hrd as [Hne Hrd]. apply IH; [exact Hrd|].
    rewrite lookup_insert_ne by congruence. exact Hacc. }
  specialize (Hread ∅ (lookup_empty _)).
  revert Hread.
  generalize (foldl (λ (acc : gmap string string) g, <[g := "read"]> acc) ∅ rd).
  induction wr as [|g wr IH]; intros acc Hacc; cbn; [exact Hacc|].
  apply not_elem_of_cons in Hwr as [Hne Hwr]. apply IH; [exact Hwr|].
  destruct (bool_decide _); rewrite lookup_insert_ne by congruence; exact Hacc.
Qed.

(** An identifier named in neither list keeps the entry it had. *)
Lemma update_acl_keeps (keyspace : string) (self : DataObject.t)
    (rd wr : list string) (st : DataObject.store) (gid : string) :
  gid ∉ rd → gid ∉ wr →
  DataObject.acl_of self (DataObject.update_acl keyspace self rd wr st) !! gid
  = DataObject.acl_of self st !! gid.
Proof.
  intros Hrd Hwr. unfold DataObject.acl_of, DataObject.update_acl. cbn.
  rewrite lookup_insert_eq. cbn.
  apply lookup_union_r. unfold DataObject.acl_literal.
  rewrite map_lookup_imap, access_of_absent by assumption. reflexivity.
Qed.
End UpdateFacts.

(** C1 (the code departs from it): after [update_acl] with read list [g2]
    and an empty write list on an object whose ACL grants read to [g1], the
    entry of [g1] is still in the ACL, next to the new entry of [g2]. *)
Theorem update_acl_merges :
  DataObject.acl_of (ex_object "o1") ex_chunks
  = {[ "g1" := mkAce "ALLOW" "staff" 0 1 ]}
  ∧ DataObject.acl_of (ex_object "o1")
      (DataObject.update_acl (codec := acl_model) (dir := group_model)
         "indigo" (ex_object "o1") ["g2"] [] ex_chunks)
    = {[ "g1" := mkAce "ALLOW" "staff" 0 1;
         "g2" := mkAce "ALLOW" "guests" 0 1 ]}
  ∧ DataObject.acl_of (ex_object "o1")
      (DataObject.create_acl (codec := acl_model) (dir := group_model)
         "indigo" (ex_object "o1") ["g2"] [] ex_chunks) !! "g1"
    = Some (mkAce "ALLOW" "staff" 0 1).
Proof.
  split; [vm_compute; reflexivity|]. split.
  - apply map_eq. intros gid.
    destruct (decide (gid = "g2")) as [->|Hne]; [vm_compute; reflexivity|].
    rewrite (update_acl_keeps (codec := acl_model) (dir := group_model));
      [|intros Hin; apply list_elem_of_singleton in Hin; exact (Hne Hin)
       |apply not_elem_of_nil].
    destruct (decide (gid = "g1")) as [->|Hne1]; [vm_compute; reflexivity|].
    rewrite lookup_insert_ne by congruence.
    rewrite lookup_singleton_ne by congruence.
    unfold DataObject.acl_of. cbn. rewrite lookup_singleton_eq. cbn.
    apply lookup_singleton_ne. congruence.
  - vm_compute. reflexivity.
Qed.

(** C8 (the code departs from it): [update] with the per-chunk field
    [compressed] issues no statement and ends with the exception for the
    attribute [container], which the class does not declare; the static
    field [size] is written by the statement keyed on the uuid alone. *)
Theorem update_routing :
  DataObject.update (ex_object "o1") [("compressed", PBool true)]
  = ([], Raise (AttributeError "container"))
  ∧ DataObject.update (ex_object "o1") [("size", PInt 4)]
    = ([UpdateWhereUuid "size" (PInt 4) (PStr "o1")], Ok ())
  ∧ DataObject.update (ex_object "o1")
      [("size", PInt 4); ("blob", PStr "x"); ("mimetype", PStr "text/plain")]
    = ([UpdateWhereUuid "size" (PInt 4) (PStr "o1")],
       Raise (AttributeError "container")).
Proof. repeat split; vm_compute; reflexivity. Qed.

(** ** Term index *)

(** C9 (as the code behaves): for an object whose attribute [f], other than
    the metadata, is the string [the cat sat], [index] on [f] drops the stop
    word and creates rows for the terms [cat] and [sat] and, after them, a
    row for the whole lowercased value [the cat sat]; when that string is a
    metadata value, [index] on the metadata creates rows for [cat] and [sat]
    and no other. *)
Theorem index_the_cat_sat (o : SearchIndex2.object) (f : string) :
  f ≠ "metadata" →
  SearchIndex2.getattr o f = Ok (SearchIndex2.AStr "the cat sat") →
  SearchIndex2.index o [f]
  = ((λ t, SearchIndex2.mk t f (SearchIndex2.class_name o) (SearchIndex2.id o))
       <$> ["cat"; "sat"; "the cat sat"],
     Ok 3%nat)
  ∧ ∀ k : string,
      SearchIndex2.get_metadata o = [(k, SearchIndex2.MStr "the cat sat")] →
      SearchIndex2.index o ["metadata"]
      = ((λ t, SearchIndex2.mk t "metadata" (SearchIndex2.class_name o)
                 (SearchIndex2.id o)) <$> ["cat"; "sat"],
         Ok 2%nat).
Proof.
  intros Hf Hattr. split.
  - unfold SearchIndex2.index.
    rewrite bool_decide_eq_false_2
      by (intros Hin; apply list_elem_of_singleton in Hin; congruence).
    cbn [SearchIndex2.field_terms]. rewrite Hattr.
    vm_compute. reflexivity.
  - intros k Hmd. unfold SearchIndex2.index.
    rewrite bool_decide_eq_true_2 by (apply list_elem_of_singleton; reflexivity).
    rewrite Hmd. vm_compute. reflexivity.
Qed.

Lemma index_the_cat_sat_witness :
  SearchIndex2.term <$> (SearchIndex2.index ex_node ["name"]).1
  = ["cat"; "sat"; "the cat sat"].
Proof.
  destruct (index_the_cat_sat ex_node "name") as [Hrun _].
  - discriminate.
  - reflexivity.
  - rewrite Hrun. reflexivity.
Defined.

(** C9, as stated, fails: indexing the name [the cat sat] creates a row whose
    term is neither [cat] nor [sat]. *)
Lemma index_terms_counterexample :
  SearchIndex2.getattr ex_node "name" = Ok (SearchIndex2.AStr "the cat sat")
  ∧ ∃ r : SearchIndex2.t,
      r ∈ (SearchIndex2.index ex_node ["name"]).1
      ∧ SearchIndex2.term r ≠ "cat" ∧ SearchIndex2.term r ≠ "sat".
Proof.
  split; [reflexivity|].
  exists (SearchIndex2.mk "the cat sat" "name" "Collection" "id1").
  split; [|split; discriminate].
  vm_compute. right. right. left.
Qed.

(** * Further properties of the modelled code *)

(** ** Listing the children of a collection *)

Lemma endswith_slashed (s : string) : endswith "/" (s +:+ "/") = true.
Proof.
  induction s as [|a s IH]; [reflexivity|].
  cbn. destruct s; [reflexivity|exact IH].
Qed.

Lemma but_last_slashed (s : string) : but_last (s +:+ "/") = s.
Proof.
  induction s as [|a s IH]; [reflexivity|].
  destruct s as [|b s]; [reflexivity|].
  change (String a (but_last (String b s +:+ "/")) = String a (String b s)).
  rewrite IH. reflexivity.
Qed.

Lemma endswith_but_last (c : ascii) (s : string) :
  endswith c s = true → s = but_last s +:+ String c EmptyString.
Proof.
  induction s as [|a s IH]; [discriminate|].
  destruct s as [|b s].
  - cbn. intros E. apply Ascii.eqb_eq in E. subst a. reflexivity.
  - intros E. specialize (IH E).
    change (String a (String b s)
            = String a (but_last (String b s) +:+ String c EmptyString)).
    f_equal. exact IH.
Qed.

Lemma partition_elem (p : string) (st : TreeEntry.store) n c :
  (n, c) ∈ TreeEntry.partition p st ↔ TreeEntry.rows st !! (p, n) = Some c.
Proof.
  unfold TreeEntry.partition.
  rewrite merge_sort_Permutation, list_elem_of_fmap. split.
  - intros ([[p' n'] c'] & E & Hin). cbn in E. injection E as -> ->.
    apply list_elem_of_filter in Hin as [Hp Hin]. cbn in Hp. subst p'.
    apply elem_of_map_to_list. exact Hin.
  - intros Hl. exists (p, n, c). split; [reflexivity|].
    apply list_elem_of_filter. split; [reflexivity|].
    apply elem_of_map_to_list. exact Hl.
Qed.

Lemma sort_child_elem (l : list (string * TreeEntry.cols))
    (acc : list string * list string) (n : string) :
  (n ∈ (foldl Collection.sort_child acc l).1
   ↔ n ∈ acc.1 ∨ ∃ e, e ∈ l ∧ endswith "/" e.1 = true ∧ n = but_last e.1)
  ∧ (n ∈ (foldl Collection.sort_child acc l).2
     ↔ n ∈ acc.2 ∨ ∃ e, e ∈ l ∧ e.1 ≠ "." ∧ endswith "/" e.1 = false ∧ n = e.1).
Proof.
  revert acc. induction l as [|e l IH]; intros acc.
  - cbn. split; (split; [auto|intros [?|(e & He & _)]; [assumption|]]);
      inversion He.
  - cbn [foldl]. destruct (IH (Collection.sort_child acc e)) as [IH1 IH2].
    rewrite IH1, IH2. clear IH IH1 IH2. unfold Collection.sort_child.
    case_bool_decide as Hdot.
    { split; (split; intros [Hacc|(e' & He' & Hrest)]; [auto| |auto|]).
      - right. exists e'. split; [right; exact He'|exact Hrest].
      - apply elem_of_cons in He' as [->|He'].
        + rewrite Hdot in Hrest. destruct Hrest as [Hrest _]. discriminate.
        + right. eauto.
      - right. exists e'. split; [right; exact He'|exact Hrest].
      - apply elem_of_cons in He' as [->|He'].
        + destruct Hrest as [Hrest _]. contradiction.
        + right. eauto. }
    destruct (endswith "/" e.1) eqn:Hend; cbn [fst snd].
    + split; (split; intros [Hacc|(e' & He' & Hrest)]).
      * apply elem_of_app in Hacc as [Hacc|Hacc]; [auto|].
        apply list_elem_of_singleton in Hacc. right. exists e.
        split; [left|]. split; [exact Hend|exact Hacc].
      * right. exists e'. split; [right; exact He'|exact Hrest].
      * left. apply elem_of_app. auto.
      * apply elem_of_cons in He' as [->|He'].
        -- left. apply elem_of_app. right. apply list_elem_of_singleton.
           apply Hrest.
        -- right. eauto.
      * auto.
      * right. exists e'. split; [right; exact He'|exact Hrest].
      * auto.
      * apply elem_of_cons in He' as [->|He'].
        -- destruct Hrest as (_ & Hrest & _). congruence.
        -- right. eauto.
    + split; (split; intros [Hacc|(e' & He' & Hrest)]).
      * auto.
      * right. exists e'. split; [right; exact He'|exact Hrest].
      * auto.
      * apply elem_of_cons in He' as [->|He'].
        -- destruct Hrest as [Hrest _]. congruence.
        -- right. eauto.
      * apply elem_of_app in Hacc as [Hacc|Hacc]; [auto|].
        apply list_elem_of_singleton in Hacc. right. exists e.
        split; [left|]. split; [exact Hdot|]. split; [exact Hend|exact Hacc].
      * right. exists e'. split; [right; exact He'|exact Hrest].
      * left. apply elem_of_app. auto.
      * apply elem_of_cons in He' as [->|He'].
        -- left. apply elem_of_app. right. apply list_elem_of_singleton.
           apply Hrest.
        -- right. eauto.
Qed.

Lemma get_child_collections {util : Util} {codec : AclCodec} {gen : IdGen}
    (self : Collection.t) (st : TreeEntry.store) (n : string) :
  n ∈ (Collection.get_child self st).1
  ↔ is_Some (TreeEntry.rows st !! (Collection.path self, n +:+ "/")).
Proof.
  unfold Collection.get_child.
  rewrite (proj1 (sort_child_elem _ _ n)). cbn [fst]. split.
  - intros [Hnil|([m c] & He & Hend & ->)]; [inversion Hnil|].
    cbn in Hend |- *. apply partition_elem in He.
    rewrite <- (endswith_but_last _ _ Hend). eauto.
  - intros [c Hc]. right. exists (n +:+ "/", c).
    split; [apply partition_elem; exact Hc|]. cbn.
    split; [apply endswith_slashed|]. symmetry. apply but_last_slashed.
Qed.

Lemma get_child_objects {util : Util} {codec : AclCodec} {gen : IdGen}
    (self : Collection.t) (st : TreeEntry.store) (n : string) :
  n ∈ (Collection.get_child self st).2
  ↔ n ≠ "." ∧ endswith "/" n = false
    ∧ is_Some (TreeEntry.rows st !! (Collection.path self, n)).
Proof.
  unfold Collection.get_child.
  rewrite (proj2 (sort_child_elem _ _ n)). cbn [snd]. split.
  - intros [Hnil|([m c] & He & Hdot & Hend & ->)]; [inversion Hnil|].
    cbn in *. apply partition_elem in He. eauto.
  - intros (Hdot & Hend & [c Hc]). right. exists (n, c).
    split; [apply partition_elem; exact Hc|]. cbn. auto.
Qed.

(** X1: [get_child] lists as child collections exactly the names [n] for
    which the partition of the collection holds a row named [n/], and as
    child data objects exactly the names of its rows that are not [.] and
    do not end with a slash. *)
Theorem get_child_lists {util : Util} {codec : AclCodec} {gen : IdGen}
    (self : Collection.t) (st : TreeEntry.store) (n : string) :
  (n ∈ (Collection.get_child self st).1
   ↔ is_Some (TreeEntry.rows st !! (Collection.path self, n +:+ "/")))
  ∧ (n ∈ (Collection.get_child self st).2
     ↔ n ≠ "." ∧ endswith "/" n = false
       ∧ is_Some (TreeEntry.rows st !! (Collection.path self, n))).
Proof. split; [apply get_child_collections|apply get_child_objects]. Qed.

(** X2: after a successful [create] on a path where the path algebra
    round-trips, the parent collection lists the new name among its child
    collections and not among its child data objects. *)
Theorem create_then_listed {util : Util} {codec : AclCodec} {gen : IdGen}
    (name container : string) (metadata : option (gmap string string))
    (now : Z) (st st' : TreeEntry.store) (c : option Collection.t)
    (parent_container : Collection.t) :
  split (merge container name) = (container, name) →
  Collection.create name container metadata now st = (Ok c, st') →
  Collection.path parent_container = container →
  name ∈ (Collection.get_child parent_container st').1
  ∧ name ∉ (Collection.get_child parent_container st').2.
Proof.
  intros Hsplit Hcreate Hpath.
  destruct (create_Ok_inv _ _ _ _ _ _ _ Hcreate) as (Hpc & Hres & Hnone).
  rewrite (create_success _ _ metadata now _ Hpc Hres Hnone) in Hcreate.
  injection Hcreate as _ <-. split.
  - apply get_child_collections. rewrite Hpath. cbn [TreeEntry.rows].
    rewrite created_rows_child. eauto.
  - intros Hin. apply get_child_objects in Hin as (_ & _ & [x Hx]).
    rewrite Hpath in Hx. cbn [TreeEntry.rows] in Hx.
    rewrite created_rows_other in Hx.
    + unfold Collection.Resource_find, TreeEntry.filter_first in Hres.
      rewrite Hsplit in Hres. cbn in Hres. rewrite Hx in Hres. discriminate.
    + intros E. injection E as E _. apply find_is_Some in Hpc.
      rewrite E in Hpc. rewrite find_lookup in Hnone.
      destruct Hpc as [y Hy]. rewrite Hy in Hnone. discriminate.
    + intros E. injection E as E. exact (not_own_slashed _ E).
Qed.

Lemma create_then_listed_witness :
  "x" ∈ (Collection.get_child (ex_root ∅)
           (Collection.create (util := util_model) (gen := id_model)
              "x" "/" None 7 ex_root_only).2).1.
Proof.
  apply (create_then_listed (util := util_model) (codec := acl_model)
           (gen := id_model) "x" "/" None 7 ex_root_only _
           (Collection.find (util := util_model) "/x"
              (Collection.create (util := util_model) (gen := id_model)
                 "x" "/" None 7 ex_root_only).2)
           (ex_root ∅)).
  - reflexivity.
  - vm_compute. reflexivity.
  - reflexivity.
Defined.

(** X3: after [delete] of the collection found at a path other than the
    root, its parent no longer lists it among its child collections, and
    the deleted collection lists no children at all: the child rows kept in
    its partition went with it. *)
Theorem delete_then_unlisted {util : Util} {codec : AclCodec} {gen : IdGen}
    (p : string) (self parent_container : Collection.t)
    (st : TreeEntry.store) :
  Collection.find p st = Some self →
  p ≠ "/" →
  Collection.path parent_container = (split p).1 →
  ¬ ((split p).2 ∈ (Collection.get_child parent_container
                       (Collection.delete self st)).1)
  ∧ Collection.get_child self (Collection.delete self st) = ([], []).
Proof.
  intros Hfind Hroot Hpath.
  destruct (find_path _ _ _ Hfind) as (Hp & Hpar & _ & Hname).
  specialize (Hname Hroot). split.
  - intros Hin. apply get_child_collections in Hin as [x Hx].
    rewrite delete_lookup, Hpath, Hpar, Hname in Hx. cbn [fst] in Hx.
    destruct (decide _); [discriminate|].
    rewrite decide_True in Hx by reflexivity. discriminate.
  - unfold Collection.get_child.
    assert (Hempty : TreeEntry.partition (Collection.path self)
                       (Collection.delete self st) = []).
    { destruct (TreeEntry.partition _ _) as [|[n x] l] eqn:Hl; [reflexivity|].
      assert (Hin : (n, x) ∈ TreeEntry.partition (Collection.path self)
                                (Collection.delete self st))
        by (rewrite Hl; left).
      apply partition_elem in Hin. rewrite delete_lookup in Hin.
      cbn [fst] in Hin. rewrite decide_True in Hin by reflexivity.
      discriminate. }
    rewrite Hempty. reflexivity.
Qed.

Lemma delete_then_unlisted_witness :
  "a" ∉ (Collection.get_child (ex_root ∅)
           (Collection.delete (ex_a ∅) (ex_tree ∅ ∅))).1.
Proof.
  apply (delete_then_unlisted (util := util_model) (codec := acl_model)
           (gen := id_model) "/a" (ex_a ∅) (ex_root ∅) (ex_tree ∅ ∅)).
  - vm_compute. reflexivity.
  - discriminate.
  - reflexivity.
Defined.

(** X4: the collection a successful [create] returns is the one [find]
    gives at the new path; its path, parent and name are the merged path,
    the container and the name passed in; it is not the root; and it has
    neither ACL nor metadata, whatever [metadata] argument was passed. *)
Theorem create_result_fields {util : Util} {codec : AclCodec} {gen : IdGen}
    (name container : string) (metadata : option (gmap string string))
    (now : Z) (st st' : TreeEntry.store) (c : option Collection.t) :
  split (merge container name) = (container, name) →
  merge container name ≠ "/" →
  Collection.create name container metadata now st = (Ok c, st') →
  ∃ col : Collection.t,
    c = Some col
    ∧ Collection.find (merge container name) st' = Some col
    ∧ Collection.path col = merge container name
    ∧ Collection.parent col = container
    ∧ Collection.name col = name
    ∧ Collection.is_root col = false
    ∧ Collection.acl col = ∅
    ∧ Collection.metadata col = ∅
    ∧ ∀ metadata', Collection.create name container metadata' now st
                   = (Ok c, st').
Proof.
  intros Hsplit Hroot Hcreate.
  destruct (create_Ok_inv _ _ _ _ _ _ _ Hcreate) as (Hpc & Hres & Hnone).
  pose proof Hcreate as Hrun.
  rewrite (create_success _ _ metadata now _ Hpc Hres Hnone) in Hrun.
  injection Hrun as <- <-.
  eexists. split; [reflexivity|].
  split.
  { rewrite find_lookup. cbn [TreeEntry.rows].
    rewrite created_rows_self. reflexivity. }
  cbn. rewrite Hsplit. cbn.
  rewrite (bool_decide_eq_false_2 (merge container name = "/")) by exact Hroot.
  rewrite andb_false_r.
  repeat split.
  intros metadata'. apply create_success; assumption.
Qed.

Lemma create_result_fields_witness :
  ∃ col : Collection.t,
    Collection.find (util := util_model) "/x"
      (Collection.create (util := util_model) (gen := id_model)
         "x" "/" (Some {[ "k" := "v" ]}) 7 ex_root_only).2 = Some col
    ∧ Collection.parent col = "/"
    ∧ Collection.name col = "x"
    ∧ Collection.metadata col = ∅.
Proof.
  destruct (create_result_fields (util := util_model) (codec := acl_model)
              (gen := id_model) "x" "/" (Some {[ "k" := "v" ]}) 7 ex_root_only
              (Collection.create (util := util_model) (gen := id_model)
                 "x" "/" (Some {[ "k" := "v" ]}) 7 ex_root_only).2
              (Collection.find (util := util_model) "/x"
                 (Collection.create (util := util_model) (gen := id_model)
                    "x" "/" (Some {[ "k" := "v" ]}) 7 ex_root_only).2))
    as (col & _ & Hfind & _ & Hpar & Hname & _ & _ & Hmd & _).
  - reflexivity.
  - discriminate.
  - vm_compute. reflexivity.
  - exists col. auto.
Defined.

(** ** Reading an ACL back and resolving it *)

Section AclFacts.
Context {util : Util} {codec : AclCodec} {gen : IdGen}.

Lemma grant_elem (acl : gmap string Ace) (acc : gset string) g a :
  a ∈ Collection.grant acl acc g ↔ a ∈ acc ∨ a ∈ Collection.grant acl ∅ g.
Proof.
  unfold Collection.grant. destruct (acl !! g); [|set_unfold; naive_solver].
  repeat destruct (bool_decide _); set_unfold; naive_solver.
Qed.

Lemma foldl_grant_elem (acl : gmap string Ace) l (acc : gset string) a :
  a ∈ foldl (Collection.grant acl) acc l
  ↔ a ∈ acc ∨ ∃ g, g ∈ l ∧ a ∈ Collection.grant acl ∅ g.
Proof.
  revert acc. induction l as [|g l IH]; intros acc; cbn [foldl].
  - split; [auto|]. intros [?|(g & Hg & _)]; [assumption|inversion Hg].
  - rewrite IH, grant_elem. split.
    + intros [[?|?]|(g' & Hg' & ?)]; [auto| |].
      * right. exists g. split; [left|assumption].
      * right. exists g'. split; [right; assumption|assumption].
    + intros [?|(g' & Hg' & ?)]; [auto|].
      apply elem_of_cons in Hg' as [->|Hg']; [auto|].
      right. exists g'. auto.
Qed.

(** What one entry grants, by the level its mask decodes to. *)
Lemma grant_one (acl : gmap string Ace) g a :
  a ∈ Collection.grant acl ∅ g
  ↔ ∃ ace, acl !! g = Some ace
      ∧ ((acemask_to_str (acemask ace) false = "read" ∧ a = "read")
         ∨ (acemask_to_str (acemask ace) false = "write"
            ∧ a ∈ ["write"; "delete"; "edit"])
         ∨ (acemask_to_str (acemask ace) false = "read/write"
            ∧ a ∈ ["read"; "write"; "delete"; "edit"])).
Proof.
  unfold Collection.grant. destruct (acl !! g) as [ace|].
  2:{ split; [intros Ha; set_unfold; contradiction|].
      intros (ace' & Hno & _). discriminate. }
  destruct (decide (acemask_to_str (acemask ace) false = "read")) as [E|E].
  { rewrite (bool_decide_eq_true_2 _ E). split.
    - intros Ha. exists ace. split; [reflexivity|]. left.
      split; [exact E|]. set_unfold. naive_solver.
    - intros (ace' & [= <-] & [[_ ->]|[[E' _]|[E' _]]]);
        [set_unfold; naive_solver|congruence|congruence]. }
  rewrite (bool_decide_eq_false_2 _ E).
  destruct (decide (acemask_to_str (acemask ace) false = "write")) as [E2|E2].
  { rewrite (bool_decide_eq_true_2 _ E2). split.
    - intros Ha. exists ace. split; [reflexivity|]. right. left.
      split; [exact E2|]. set_unfold. naive_solver.
    - intros (ace' & [= <-] & [[E' _]|[[_ Ha]|[E' _]]]);
        [congruence|set_unfold; naive_solver|congruence]. }
  rewrite (bool_decide_eq_false_2 _ E2).
  destruct (decide (acemask_to_str (acemask ace) false = "read/write"))
    as [E3|E3].
  { rewrite (bool_decide_eq_true_2 _ E3). split.
    - intros Ha. exists ace. split; [reflexivity|]. right. right.
      split; [exact E3|]. set_unfold. naive_solver.
    - intros (ace' & [= <-] & [[E' _]|[[E' _]|[_ Ha]]]);
        [congruence|congruence|set_unfold; naive_solver]. }
  rewrite (bool_decide_eq_false_2 _ E3).
  split; [intros Ha; set_unfold; contradiction|].
  intros (ace' & [= <-] & [[? _]|[[? _]|[? _]]]); contradiction.
Qed.

Lemma sort_ace_elem (l : list (string * Ace))
    (acc : list string * list string) (gid : string) :
  (gid ∈ (foldl Collection.sort_ace acc l).1
   ↔ gid ∈ acc.1
     ∨ ∃ item, item ∈ l ∧ item.1 = gid
         ∧ (acemask_to_str (acemask item.2) false = "read"
            ∨ acemask_to_str (acemask item.2) false = "read/write"))
  ∧ (gid ∈ (foldl Collection.sort_ace acc l).2
     ↔ gid ∈ acc.2
       ∨ ∃ item, item ∈ l ∧ item.1 = gid
           ∧ (acemask_to_str (acemask item.2) false = "write"
              ∨ acemask_to_str (acemask item.2) false = "read/write")).
Proof.
  revert acc. induction l as [|item l IH]; intros acc.
  - cbn. split; (split; [auto|intros [?|(e & He & _)]; [assumption|]]);
      inversion He.
  - cbn [foldl]. destruct (IH (Collection.sort_ace acc item)) as [IH1 IH2].
    rewrite IH1, IH2. clear IH IH1 IH2. unfold Collection.sort_ace.
    destruct (decide (acemask_to_str (acemask item.2) false = "read")) as [E|E].
    { rewrite (bool_decide_eq_true_2 _ E). cbn [fst snd].
      rewrite elem_of_app, list_elem_of_singleton.
      setoid_rewrite elem_of_cons. split; [naive_solver|].
      split; [naive_solver|].
      intros [?|(e & [->|He] & Hrest)]; [auto| |naive_solver].
      destruct Hrest as (_ & [E'|E']); rewrite E in E'; discriminate. }
    rewrite (bool_decide_eq_false_2 _ E).
    destruct (decide (acemask_to_str (acemask item.2) false = "write"))
      as [E2|E2].
    { rewrite (bool_decide_eq_true_2 _ E2). cbn [fst snd].
      rewrite elem_of_app, list_elem_of_singleton.
      setoid_rewrite elem_of_cons. split; [|naive_solver].
      split; [naive_solver|].
      intros [?|(e & [->|He] & Hrest)]; [auto| |naive_solver].
      destruct Hrest as (_ & [E'|E']); rewrite E2 in E'; discriminate. }
    rewrite (bool_decide_eq_false_2 _ E2).
    destruct (decide (acemask_to_str (acemask item.2) false = "read/write"))
      as [E3|E3].
    { rewrite (bool_decide_eq_true_2 _ E3). cbn [fst snd].
      rewrite !elem_of_app, !list_elem_of_singleton.
      setoid_rewrite elem_of_cons. split; naive_solver. }
    rewrite (bool_decide_eq_false_2 _ E3).
    setoid_rewrite elem_of_cons. split; naive_solver.
Qed.
End AclFacts.

(** X5: [read_acl] returns in its first list exactly the identifiers whose
    entry decodes to [read] or [read/write], and in its second list exactly
    those whose entry decodes to [write] or [read/write]; an entry with any
    other mask is in neither. *)
Theorem read_acl_lists {util : Util} {codec : AclCodec} {gen : IdGen}
    (self : Collection.t) (gid : string) :
  (gid ∈ (Collection.read_acl self).1
   ↔ ∃ ace, Collection.acl self !! gid = Some ace
       ∧ (acemask_to_str (acemask ace) false = "read"
          ∨ acemask_to_str (acemask ace) false = "read/write"))
  ∧ (gid ∈ (Collection.read_acl self).2
     ↔ ∃ ace, Collection.acl self !! gid = Some ace
         ∧ (acemask_to_str (acemask ace) false = "write"
            ∨ acemask_to_str (acemask ace) false = "read/write")).
Proof.
  unfold Collection.read_acl.
  destruct (sort_ace_elem (map_to_list (Collection.acl self)) ([], []) gid)
    as [H1 H2].
  rewrite H1, H2. cbn [fst snd]. split; split.
  - intros [Hnil|([g ace] & Hin & <- & Hl)]; [inversion Hnil|].
    apply elem_of_map_to_list in Hin. eauto.
  - intros (ace & Hl & Hlv). right. exists (gid, ace).
    split; [apply elem_of_map_to_list; exact Hl|]. auto.
  - intros [Hnil|([g ace] & Hin & <- & Hl)]; [inversion Hnil|].
    apply elem_of_map_to_list in Hin. eauto.
  - intros (ace & Hl & Hlv). right. exists (gid, ace).
    split; [apply elem_of_map_to_list; exact Hl|]. auto.
Qed.

(** X6: [read_acl] and the resolver agree.  For a user in group [gid]: if
    [read_acl] lists [gid] with read access the resolved actions contain
    read, and if it lists [gid] with write access they contain write,
    delete and edit; conversely a resolved read (write) on a collection
    with an ACL of its own comes from one of the user's groups, or
    [AUTHENTICATED@], that [read_acl] lists with read (write) access. *)
Theorem read_acl_agrees {util : Util} {codec : AclCodec} {gen : IdGen}
    (fuel : nat) (st : TreeEntry.store) (self : Collection.t)
    (user : User.t) (gid : string) :
  gid ∈ User.groups user →
  (gid ∈ (Collection.read_acl self).1 →
     ∃ actions : gset string,
       Collection.get_authorized_actions (S fuel) st self user
       = Some (Ok actions) ∧ "read" ∈ actions)
  ∧ (gid ∈ (Collection.read_acl self).2 →
     ∃ actions : gset string,
       Collection.get_authorized_actions (S fuel) st self user
       = Some (Ok actions) ∧ {[ "write"; "delete"; "edit" ]} ⊆ actions)
  ∧ (Collection.acl self ≠ ∅ →
     ∀ actions : gset string,
       Collection.get_authorized_actions (S fuel) st self user
       = Some (Ok actions) →
       ("read" ∈ actions →
          ∃ g, g ∈ (User.groups user ++ ["AUTHENTICATED@"])%list
               ∧ g ∈ (Collection.read_acl self).1)
       ∧ ("write" ∈ actions →
          ∃ g, g ∈ (User.groups user ++ ["AUTHENTICATED@"])%list
               ∧ g ∈ (Collection.read_acl self).2)).
Proof.
  intros Hin.
  assert (Hown : ∀ ace, Collection.acl self !! gid = Some ace →
            Collection.acl self ≠ ∅).
  { intros ace Hl E. rewrite E, lookup_empty in Hl. discriminate. }
  assert (Hmem : gid ∈ (User.groups user ++ ["AUTHENTICATED@"])%list)
    by (apply elem_of_app; left; exact Hin).
  split; [|split].
  - intros Hr. apply read_acl_lists in Hr as (ace & Hl & Hlv).
    rewrite resolve_own_acl by exact (Hown ace Hl).
    eexists. split; [reflexivity|].
    apply foldl_grant_elem. right. exists gid. split; [exact Hmem|].
    apply grant_one. exists ace. split; [exact Hl|].
    destruct Hlv as [E|E]; [left; auto|].
    right. right. split; [exact E|]. set_unfold. auto.
  - intros Hw. apply read_acl_lists in Hw as (ace & Hl & Hlv).
    rewrite resolve_own_acl by exact (Hown ace Hl).
    eexists. split; [reflexivity|].
    intros a Ha.
    apply foldl_grant_elem. right. exists gid. split; [exact Hmem|].
    apply grant_one. exists ace. split; [exact Hl|].
    destruct Hlv as [E|E].
    + right. left. split; [exact E|]. set_unfold. naive_solver.
    + right. right. split; [exact E|]. set_unfold. naive_solver.
  - intros Hacl actions Hrun.
    rewrite resolve_own_acl in Hrun by exact Hacl.
    injection Hrun as <-. split; intros Ha;
      apply foldl_grant_elem in Ha as [Ha|(g & Hg & Ha)];
      try (set_unfold; contradiction);
      apply grant_one in Ha as (ace & Hl & Hcases);
      exists g; (split; [exact Hg|]); apply read_acl_lists;
      exists ace; (split; [exact Hl|]).
    + destruct Hcases as [[E _]|[[E Hm]|[E _]]]; [auto| |auto].
      set_unfold. naive_solver.
    + destruct Hcases as [[E Hm]|[[E _]|[E _]]]; [discriminate|auto|auto].
Qed.

Lemma read_acl_agrees_witness :
  ∃ actions : gset string,
    Collection.get_authorized_actions (util := util_model) (codec := acl_model)
      1 (ex_tree ∅ ex_write_g1) (ex_a ex_write_g1) ex_member
    = Some (Ok actions)
    ∧ {[ "write"; "delete"; "edit" ]} ⊆ actions.
Proof.
  destruct (read_acl_agrees (util := util_model) (codec := acl_model)
              (gen := id_model) 0 (ex_tree ∅ ex_write_g1) (ex_a ex_write_g1)
              ex_member "g1") as (_ & Hwrite & _).
  - vm_compute. left.
  - apply Hwrite. vm_compute. left.
Defined.

(** X7: whatever the store, the node and the user, an action set the
    resolver returns holds only the actions read, write, delete and edit. *)
Theorem resolver_actions_bounded {util : Util} {codec : AclCodec}
    {gen : IdGen} (fuel : nat) (st : TreeEntry.store) (self : Collection.t)
    (user : User.t) (actions : gset string) :
  Collection.get_authorized_actions fuel st self user = Some (Ok actions) →
  ∀ a, a ∈ actions → a ∈ ["read"; "write"; "delete"; "edit"].
Proof.
  revert self. induction fuel as [|fuel IH]; intros self; [discriminate|].
  cbn [Collection.get_authorized_actions]. case_bool_decide as Hacl.
  - destruct (Collection.is_root self).
    + intros [= <-] a Ha. set_unfold. contradiction.
    + destruct (Collection.find _ st) as [pc|]; [apply IH|discriminate].
  - intros [= <-] a Ha.
    apply foldl_grant_elem in Ha as [Ha|(g & _ & Ha)];
      [set_unfold; contradiction|].
    apply grant_one in Ha as (ace & _ & [[_ ->]|[[_ Ha]|[_ Ha]]]);
      set_unfold; naive_solver.
Qed.

Lemma resolver_actions_bounded_witness :
  "write" ∈ ["read"; "write"; "delete"; "edit"].
Proof.
  apply (resolver_actions_bounded (util := util_model) (codec := acl_model)
           (gen := id_model) 2 (ex_tree ∅ ex_write_g1) ex_b ex_member
           {[ "write"; "delete"; "edit" ]}).
  - vm_compute. reflexivity.
  - set_unfold. auto.
Defined.

(** X8: an entry for [AUTHENTICATED@] applies to every user: whatever the
    user's groups, the resolved actions of a collection with that entry
    contain read when it decodes to [read], write, delete and edit when it
    decodes to [write], and all four when it decodes to [read/write]. *)
Theorem authenticated_applies_to_all {util : Util} {codec : AclCodec}
    {gen : IdGen} (fuel : nat) (st : TreeEntry.store) (self : Collection.t)
    (user : User.t) (ace : Ace) :
  Collection.acl self !! "AUTHENTICATED@" = Some ace →
  ∃ actions : gset string,
    Collection.get_authorized_actions (S fuel) st self user = Some (Ok actions)
    ∧ (acemask_to_str (acemask ace) false = "read" → "read" ∈ actions)
    ∧ (acemask_to_str (acemask ace) false = "write" →
       {[ "write"; "delete"; "edit" ]} ⊆ actions)
    ∧ (acemask_to_str (acemask ace) false = "read/write" →
       {[ "read"; "write"; "delete"; "edit" ]} ⊆ actions).
Proof.
  intros Hl.
  assert (Hacl : Collection.acl self ≠ ∅).
  { intros E. rewrite E, lookup_empty in Hl. discriminate. }
  rewrite resolve_own_acl by exact Hacl.
  eexists. split; [reflexivity|].
  assert (Hgrant : ∀ a, a ∈ Collection.grant (Collection.acl self) ∅
                              "AUTHENTICATED@" →
             a ∈ foldl (Collection.grant (Collection.acl self)) ∅
                   (User.groups user ++ ["AUTHENTICATED@"])%list).
  { intros a Ha. apply foldl_grant_elem. right. exists "AUTHENTICATED@".
    split; [|exact Ha]. apply elem_of_app. right. left. }
  split; [|split]; intros E.
  - apply Hgrant, grant_one. exists ace. split; [exact Hl|]. left. auto.
  - intros a Ha. apply Hgrant, grant_one. exists ace. split; [exact Hl|].
    right. left. split; [exact E|]. set_unfold. naive_solver.
  - intros a Ha. apply Hgrant, grant_one. exists ace. split; [exact Hl|].
    right. right. split; [exact E|]. set_unfold. naive_solver.
Qed.

Lemma authenticated_applies_to_all_witness :
  ∃ actions : gset string,
    Collection.get_authorized_actions (util := util_model) (codec := acl_model)
      1 (ex_tree ex_auth_read ∅) (ex_root ex_auth_read) ex_outsider
    = Some (Ok actions)
    ∧ "read" ∈ actions.
Proof.
  destruct (authenticated_applies_to_all (util := util_model)
              (codec := acl_model) (gen := id_model) 0
              (ex_tree ex_auth_read ∅) (ex_root ex_auth_read) ex_outsider
              (mkAce "ALLOW" "AUTHENTICATED@" 0 1))
    as (actions & Hrun & Hread & _).
  - vm_compute. reflexivity.
  - exists actions. split; [exact Hrun|]. apply Hread. reflexivity.
Defined.

(** X9: on a collection with an ACL of its own, a user none of whose
    groups, nor [AUTHENTICATED@], has an entry decoding to one of the three
    levels resolves to the empty set, whatever the store holds for its
    ancestors. *)
Theorem no_entry_no_access {util : Util} {codec : AclCodec} {gen : IdGen}
    (fuel : nat) (st : TreeEntry.store) (self : Collection.t)
    (user : User.t) :
  Collection.acl self ≠ ∅ →
  (∀ g ace, g ∈ (User.groups user ++ ["AUTHENTICATED@"])%list →
            Collection.acl self !! g = Some ace →
            acemask_to_str (acemask ace) false ∉ ["read"; "write"; "read/write"]) →
  Collection.get_authorized_actions (S fuel) st self user = Some (Ok ∅).
Proof.
  intros Hacl Hnone. rewrite resolve_own_acl by exact Hacl.
  do 2 f_equal. apply set_eq. intros a. split; [|set_unfold; contradiction].
  intros Ha. apply foldl_grant_elem in Ha as [Ha|(g & Hg & Ha)];
    [exact Ha|].
  apply grant_one in Ha as (ace & Hl & Hcases).
  exfalso. apply (Hnone g ace Hg Hl).
  destruct Hcases as [[E _]|[[E _]|[E _]]]; rewrite E; set_unfold; auto.
Qed.

Lemma no_entry_no_access_witness :
  Collection.get_authorized_actions (util := util_model) (codec := acl_model)
    1 (ex_tree ex_auth_read ex_write_g1) (ex_a ex_write_g1) ex_outsider
  = Some (Ok ∅).
Proof.
  apply (no_entry_no_access (util := util_model) (codec := acl_model)
           (gen := id_model) 0 (ex_tree ex_auth_read ex_write_g1)
           (ex_a ex_write_g1) ex_outsider).
  - intros E.
    assert (Hl : ex_write_g1 !! "g1" = (∅ : gmap string Ace) !! "g1")
      by (rewrite <- E; reflexivity).
    vm_compute in Hl. discriminate.
  - intros g ace Hg Hl. exfalso.
    assert (Hcases : g = "g9" ∨ g = "AUTHENTICATED@")
      by (vm_compute in Hg; set_unfold; naive_solver).
    destruct Hcases as [-> | ->]; vm_compute in Hl; discriminate.
Defined.

(** X10: the resolver is monotone in the user's groups: a user who belongs
    to every group of another resolves, on the same node and store, to a
    superset of the other's actions. *)
Theorem resolver_monotone {util : Util} {codec : AclCodec} {gen : IdGen}
    (fuel : nat) (st : TreeEntry.store) (self : Collection.t)
    (u u' : User.t) (actions : gset string) :
  (∀ g, g ∈ User.groups u → g ∈ User.groups u') →
  Collection.get_authorized_actions fuel st self u = Some (Ok actions) →
  ∃ actions' : gset string,
    Collection.get_authorized_actions fuel st self u' = Some (Ok actions')
    ∧ actions ⊆ actions'.
Proof.
  intros Hsub. revert self. induction fuel as [|fuel IH]; intros self;
    [discriminate|].
  cbn [Collection.get_authorized_actions]. case_bool_decide as Hacl.
  - destruct (Collection.is_root self).
    + intros [= <-]. exists ∅. split; reflexivity.
    + destruct (Collection.find _ st) as [pc|]; [apply IH|discriminate].
  - intros [= <-]. eexists. split; [reflexivity|].
    intros a Ha. apply foldl_grant_elem in Ha as [Ha|(g & Hg & Ha)];
      [set_unfold; contradiction|].
    apply foldl_grant_elem. right. exists g. split; [|exact Ha].
    apply elem_of_app in Hg as [Hg|Hg]; apply elem_of_app; auto.
Qed.

Lemma resolver_monotone_witness :
  ∃ actions' : gset string,
    Collection.get_authorized_actions (util := util_model) (codec := acl_model)
      2 (ex_tree ∅ ex_write_g1) ex_b ex_member2 = Some (Ok actions')
    ∧ {[ "write"; "delete"; "edit" ]} ⊆ actions'.
Proof.
  apply (resolver_monotone (util := util_model) (codec := acl_model)
           (gen := id_model) 2 (ex_tree ∅ ex_write_g1) ex_b
           ex_member ex_member2).
  - intros g Hg. vm_compute in Hg. set_unfold.
    destruct Hg as [-> | []]. vm_compute. set_unfold. auto.
  - vm_compute. reflexivity.
Defined.

(** ** Partitions of the chunk table *)

(** The rows of a partition are determined by the strictly ascending list
    of its stored chunks. *)
Lemma objects_filter_unique (u : string) (st : DataObject.store)
    (l : list (Z * DataObject.chunk)) :
  StronglySorted (λ a b : Z * DataObject.chunk, a.1 < b.1) l →
  (∀ n c, (n, c) ∈ l ↔ DataObject.chunks st !! (u, n) = Some c) →
  DataObject.objects_filter u st = l.
Proof.
  intros Hsorted Hmem.
  apply (StronglySorted_unique_strong (λ a b : Z * DataObject.chunk, a.1 < b.1)).
  - intros x y _ _ Hxy Hyx. lia.
  - apply objects_filter_ascending.
  - exact Hsorted.
  - apply NoDup_Permutation.
    + apply objects_filter_NoDup.
    + clear Hmem. induction Hsorted as [|x l _ IH Hall]; constructor;
        [|exact IH].
      intros Hin. rewrite Forall_forall in Hall. specialize (Hall x Hin). lia.
    + intros [n c]. rewrite objects_filter_elem, Hmem. reflexivity.
Qed.

Lemma objects_filter_ext (u : string) (st st' : DataObject.store) :
  (∀ n, DataObject.chunks st !! (u, n) = DataObject.chunks st' !! (u, n)) →
  DataObject.objects_filter u st = DataObject.objects_filter u st'.
Proof.
  intros Hsame. apply objects_filter_unique.
  - apply objects_filter_ascending.
  - intros n c. rewrite objects_filter_elem, Hsame. reflexivity.
Qed.

Lemma objects_filter_nil (u : string) (st : DataObject.store) :
  DataObject.objects_filter u st = []
  ↔ ∀ n, DataObject.chunks st !! (u, n) = None.
Proof.
  split.
  - intros Hnil n. destruct (DataObject.chunks st !! (u, n)) as [c|] eqn:Hc;
      [|reflexivity].
    apply objects_filter_elem in Hc. rewrite Hnil in Hc. inversion Hc.
  - intros Hnone. apply objects_filter_unique; [constructor|].
    intros n c. rewrite Hnone. split; [intros Hin; inversion Hin|discriminate].
Qed.

Lemma delete_id_chunks (u : string) (st : DataObject.store) k :
  DataObject.chunks (DataObject.delete_id u st) !! k
  = if decide (k.1 = u) then None else DataObject.chunks st !! k.
Proof.
  unfold DataObject.delete_id. cbn. destruct (decide (k.1 = u)) as [E|E].
  - apply map_lookup_filter_None_2. right. intros x _ Hn. exact (Hn E).
  - destruct (DataObject.chunks st !! k) as [x|] eqn:Hk.
    + apply map_lookup_filter_Some_2; [exact Hk|exact E].
    + apply map_lookup_filter_None_2. left. exact Hk.
Qed.

Section PartitionFacts.
Context {codec : AclCodec} {dir : Group.Directory} {zip : Zip}.

Lemma drain_app (l l' : list (Z * DataObject.chunk)) ys :
  DataObject.drain l = (ys, None) →
  DataObject.drain (l ++ l')%list
  = ((ys ++ (DataObject.drain l').1)%list, (DataObject.drain l').2).
Proof.
  revert ys. induction l as [|entry l IH]; intros ys; cbn [DataObject.drain app].
  - intros [= <-]. cbn. destruct (DataObject.drain l'). reflexivity.
  - destruct (DataObject.compressed entry.2).
    + destruct (zip_read _ _) as [content|e]; [|discriminate].
      destruct (DataObject.drain l) as [ys0 e0] eqn:Hl.
      intros [= <- ->]. rewrite (IH ys0 eq_refl). reflexivity.
    + destruct (DataObject.drain l) as [ys0 e0] eqn:Hl.
      intros [= <- ->]. rewrite (IH ys0 eq_refl). reflexivity.
Qed.

Lemma drain_one (entry : Z * DataObject.chunk) (content : string) :
  DataObject.yields entry content →
  DataObject.drain [entry] = ([content], None).
Proof.
  unfold DataObject.yields. cbn.
  destruct (DataObject.compressed entry.2); intros ->; reflexivity.
Qed.
End PartitionFacts.

(** X11: [append_chunk] writes one row: afterwards the partition of the
    uuid holds the new chunk under its sequence number, in place of a chunk
    that had that number before, and the chunks with other numbers as they
    were; the partitions of other uuids and every ACL are untouched. *)
Theorem append_chunk_overwrites (defaults : string → pyval) (u data : string)
    (seq : Z) (compressed : bool) (st : DataObject.store) :
  (∀ n c,
     (n, c) ∈ DataObject.objects_filter u
                (DataObject.append_chunk defaults u data seq compressed st).2
     ↔ (n = seq ∧ c = DataObject.mkChunk data compressed)
       ∨ (n ≠ seq ∧ (n, c) ∈ DataObject.objects_filter u st))
  ∧ (∀ u', u' ≠ u →
       DataObject.objects_filter u'
         (DataObject.append_chunk defaults u data seq compressed st).2
       = DataObject.objects_filter u' st)
  ∧ DataObject.acls (DataObject.append_chunk defaults u data seq compressed st).2
    = DataObject.acls st.
Proof.
  split; [|split; [|reflexivity]].
  - intros n c. rewrite !objects_filter_elem. cbn.
    destruct (decide (n = seq)) as [->|Hne].
    + rewrite lookup_insert_eq. split.
      * intros [= <-]. left. auto.
      * intros [[_ ->]|[Hne _]]; [reflexivity|contradiction].
    + rewrite lookup_insert_ne by congruence. split.
      * intros Hc. right. auto.
      * intros [[E _]|[_ Hc]]; [contradiction|exact Hc].
  - intros u' Hne. apply objects_filter_ext. intros n. cbn.
    rewrite lookup_insert_ne by congruence. reflexivity.
Qed.

(** X12: appending a chunk whose sequence number is above every number of
    the object appends to its content: when reading the object yielded [ys]
    before, it yields [ys] followed by the value the new chunk stands for. *)
Theorem append_chunk_at_end {codec : AclCodec} {dir : Group.Directory}
    {zip : Zip} (defaults : string → pyval) (self : DataObject.t)
    (data : string) (seq : Z) (compressed : bool) (st : DataObject.store)
    (ys : list string) (content : string) :
  (∀ n c, DataObject.chunks st !! (DataObject.uuid self, n) = Some c → n < seq) →
  DataObject.chunk_content self st = (ys, None) →
  DataObject.yields (seq, DataObject.mkChunk data compressed) content →
  DataObject.chunk_content self
    (DataObject.append_chunk defaults (DataObject.uuid self) data seq
       compressed st).2
  = ((ys ++ [content])%list, None).
Proof.
  intros Habove Hold Hnew. unfold DataObject.chunk_content in *.
  assert (Hrows : DataObject.objects_filter (DataObject.uuid self)
                    (DataObject.append_chunk defaults (DataObject.uuid self)
                       data seq compressed st).2
                  = (DataObject.objects_filter (DataObject.uuid self) st
                     ++ [(seq, DataObject.mkChunk data compressed)])%list).
  { apply objects_filter_unique.
    - apply StronglySorted_app_2.
      + intros [n c] x Hin Hx. apply list_elem_of_singleton in Hx. subst x.
        cbn. apply objects_filter_elem in Hin. exact (Habove n c Hin).
      + apply objects_filter_ascending.
      + repeat constructor.
    - intros n c. rewrite elem_of_app, list_elem_of_singleton,
        objects_filter_elem. cbn.
      destruct (decide (n = seq)) as [->|Hne].
      + rewrite lookup_insert_eq. split.
        * intros [Hc|[= ->]]; [|reflexivity].
          specialize (Habove seq c Hc). lia.
        * intros [= <-]. right. reflexivity.
      + rewrite lookup_insert_ne by congruence. split.
        * intros [Hc|[= E _]]; [exact Hc|contradiction].
        * auto. }
  rewrite Hrows, (drain_app _ _ ys Hold), (drain_one _ content Hnew).
  reflexivity.
Qed.

Lemma append_chunk_at_end_witness :
  DataObject.chunk_content (zip := zip_model) (ex_object "o1")
    (DataObject.append_chunk ex_defaults "o1" "data=ef" 5 true ex_chunks).2
  = (["ab"; "cd"; "ef"], None).
Proof.
  apply (append_chunk_at_end (codec := acl_model) (dir := group_model)
           (zip := zip_model) ex_defaults (ex_object "o1") "data=ef" 5 true
           ex_chunks ["ab"; "cd"] "ef").
  - intros n c Hc.
    assert (Hin : (n, c) ∈ DataObject.objects_filter "o1" ex_chunks)
      by (apply objects_filter_elem; exact Hc).
    vm_compute in Hin.
    apply elem_of_cons in Hin as [[= -> _]|Hin]; [lia|].
    apply elem_of_cons in Hin as [[= -> _]|Hin]; [lia|].
    inversion Hin.
  - vm_compute. reflexivity.
  - reflexivity.
Defined.

(** X13: [find] answers [None] exactly when no chunk is stored under the
    uuid; otherwise it returns the stored chunk of that uuid with the
    lowest sequence number. *)
Theorem find_lowest_chunk (statics : string → pyval) (u : string)
    (st : DataObject.store) :
  (DataObject.find statics u st = None
   ↔ ∀ n, DataObject.chunks st !! (u, n) = None)
  ∧ ∀ o : DataObject.t,
      DataObject.find statics u st = Some o →
      DataObject.uuid o = u
      ∧ DataObject.chunks st !! (u, DataObject.sequence_number o)
        = Some (DataObject.row o)
      ∧ ∀ n c, DataObject.chunks st !! (u, n) = Some c →
               DataObject.sequence_number o ≤ n.
Proof.
  unfold DataObject.find. split.
  - rewrite <- objects_filter_nil.
    destruct (DataObject.objects_filter u st) as [|[n c] l];
      split; try reflexivity; discriminate.
  - intros o. pose proof (objects_filter_ascending u st) as Hsorted.
    assert (Hmem := λ n c, objects_filter_elem u st n c).
    destruct (DataObject.objects_filter u st) as [|[n0 c0] l]; [discriminate|].
    intros [= <-]. cbn. split; [reflexivity|]. split.
    + apply Hmem. left.
    + intros n c Hc. apply Hmem in Hc.
      apply StronglySorted_cons in Hsorted as [Hall _].
      apply elem_of_cons in Hc as [[= -> _]|Hc]; [lia|].
      rewrite Forall_forall in Hall. specialize (Hall _ Hc). cbn in Hall. lia.
Qed.

(** X14: [delete_id] empties the partition of the uuid: afterwards [find]
    answers [None], reading the content yields nothing and the ACL is
    empty; the chunks and the ACL of every other uuid are as before. *)
Theorem delete_id_clears {codec : AclCodec} {dir : Group.Directory}
    {zip : Zip} (statics : string → pyval) (self : DataObject.t)
    (st : DataObject.store) :
  DataObject.find statics (DataObject.uuid self)
    (DataObject.delete_id (DataObject.uuid self) st) = None
  ∧ DataObject.chunk_content self
      (DataObject.delete_id (DataObject.uuid self) st) = ([], None)
  ∧ DataObject.acl_of self (DataObject.delete_id (DataObject.uuid self) st) = ∅
  ∧ ∀ other : DataObject.t,
      DataObject.uuid other ≠ DataObject.uuid self →
      DataObject.objects_filter (DataObject.uuid other)
        (DataObject.delete_id (DataObject.uuid self) st)
      = DataObject.objects_filter (DataObject.uuid other) st
      ∧ DataObject.acl_of other
          (DataObject.delete_id (DataObject.uuid self) st)
        = DataObject.acl_of other st.
Proof.
  assert (Hnil : DataObject.objects_filter (DataObject.uuid self)
                   (DataObject.delete_id (DataObject.uuid self) st) = []).
  { apply objects_filter_nil. intros n. rewrite delete_id_chunks.
    cbn. rewrite decide_True; reflexivity. }
  split; [|split; [|split]].
  - unfold DataObject.find. rewrite Hnil. reflexivity.
  - unfold DataObject.chunk_content. rewrite Hnil. reflexivity.
  - unfold DataObject.acl_of. cbn. rewrite lookup_delete_eq. reflexivity.
  - intros other Hne. split.
    + apply objects_filter_ext. intros n. rewrite delete_id_chunks. cbn.
      rewrite decide_False by exact Hne. reflexivity.
    + unfold DataObject.acl_of. cbn.
      rewrite lookup_delete_ne by congruence. reflexivity.
Qed.

(** X15: a data object created under an identifier that no stored chunk
    uses is found again with sequence number 0, and reading it yields the
    single value its initial chunk stands for. *)
Theorem create_then_read {codec : AclCodec} {dir : Group.Directory}
    {zip : Zip} (new_id : string) (now : Z) (defaults statics : string → pyval)
    (data : string) (compressed : bool) (st : DataObject.store)
    (content : string) :
  (∀ n, DataObject.chunks st !! (new_id, n) = None) →
  DataObject.yields (0, DataObject.mkChunk data compressed) content →
  DataObject.find statics new_id
    (DataObject.create new_id now defaults data compressed st).2
  = Some (DataObject.mk new_id 0 (DataObject.mkChunk data compressed) statics)
  ∧ DataObject.chunk_content
      (DataObject.create new_id now defaults data compressed st).1
      (DataObject.create new_id now defaults data compressed st).2
    = ([content], None).
Proof.
  intros Hfresh Hnew.
  assert (Hrows : DataObject.objects_filter new_id
                    (DataObject.create new_id now defaults data compressed st).2
                  = [(0, DataObject.mkChunk data compressed)]).
  { apply objects_filter_unique; [repeat constructor|].
    intros n c. rewrite list_elem_of_singleton. cbn.
    destruct (decide (n = 0)) as [->|Hne].
    - rewrite lookup_insert_eq. split; [intros [= ->]|intros [= <-]]; reflexivity.
    - rewrite lookup_insert_ne by congruence. rewrite Hfresh.
      split; [intros [= E _]; contradiction|discriminate]. }
  split.
  - unfold DataObject.find. rewrite Hrows. reflexivity.
  - unfold DataObject.chunk_content.
    change (DataObject.uuid (DataObject.create new_id now defaults data
                               compressed st).1) with new_id.
    rewrite Hrows. apply drain_one. exact Hnew.
Qed.

Lemma create_then_read_witness :
  DataObject.chunk_content (zip := zip_model)
    (DataObject.create "o9" 7 ex_defaults "hello" false ex_chunks).1
    (DataObject.create "o9" 7 ex_defaults "hello" false ex_chunks).2
  = (["hello"], None).
Proof.
  apply (create_then_read (codec := acl_model) (dir := group_model)
           (zip := zip_model) "o9" 7 ex_defaults ex_defaults "hello" false
           ex_chunks "hello").
  - intros n.
    destruct (DataObject.chunks ex_chunks !! ("o9", n)) as [c|] eqn:Hc;
      [|reflexivity].
    apply objects_filter_elem in Hc. vm_compute in Hc. inversion Hc.
  - reflexivity.
Defined.

(** ** ACLs of data objects *)

Section ObjectAclFacts.
Context {codec : AclCodec} {dir : Group.Directory} {zip : Zip}.

Lemma read_fold (rd : list string) (acc : gmap string string) (gid : string) :
  foldl (λ (acc : gmap string string) g, <[g := "read"]> acc) acc rd !! gid
  = if decide (gid ∈ rd) then Some "read" else acc !! gid.
Proof.
  revert acc. induction rd as [|g rd IH]; intros acc; cbn [foldl].
  - rewrite decide_False by apply not_elem_of_nil. reflexivity.
  - rewrite IH. destruct (decide (gid = g)) as [->|Hne].
    + rewrite lookup_insert_eq, (decide_True (P := g ∈ g :: rd)) by left.
      destruct (decide _); reflexivity.
    + rewrite lookup_insert_ne by congruence.
      destruct (decide (gid ∈ rd)) as [Hin|Hin].
      * rewrite decide_True by (right; exact Hin). reflexivity.
      * rewrite decide_False; [reflexivity|].
        intros Hc. apply elem_of_cons in Hc as [?|?]; contradiction.
Qed.

Lemma write_fold (wr : list string) (acc : gmap string string) (gid : string) :
  foldl (λ (acc : gmap string string) g,
           if bool_decide (is_Some (acc !! g))
           then <[g := "read/write"]> acc
           else <[g := "write"]> acc) acc wr !! gid
  = match List.length (filter (λ g, g = gid) wr) with
    | O => acc !! gid
    | S k => match acc !! gid with
             | Some _ => Some "read/write"
             | None => match k with
                       | O => Some "write"
                       | S _ => Some "read/write"
                       end
             end
    end.
Proof.
  revert acc. induction wr as [|g wr IH]; intros acc; cbn [foldl];
    [reflexivity|].
  rewrite IH, filter_cons. clear IH. destruct (decide (g = gid)) as [->|Hne].
  - cbn [List.length]. destruct (acc !! gid) as [v|] eqn:Hacc.
    + rewrite bool_decide_eq_true_2 by eauto. rewrite lookup_insert_eq.
      destruct (List.length _); reflexivity.
    + rewrite bool_decide_eq_false_2 by (intros [? ?]; discriminate).
      rewrite lookup_insert_eq. destruct (List.length _); reflexivity.
  - assert (Hsame : ∀ v : string, <[g := v]> acc !! gid = acc !! gid)
      by (intros v; apply lookup_insert_ne; exact Hne).
    destruct (bool_decide _); rewrite Hsame; reflexivity.
Qed.

(** The level [update_acl] records for an identifier. *)
Lemma access_of_spec (rd wr : list string) (gid : string) :
  DataObject.access_of rd wr !! gid
  = if decide (gid ∈ rd)
    then Some (if decide (gid ∈ wr) then "read/write" else "read")
    else match List.length (filter (λ g, g = gid) wr) with
         | O => None
         | S O => Some "write"
         | S (S _) => Some "read/write"
         end.
Proof.
  unfold DataObject.access_of. rewrite write_fold, read_fold, lookup_empty.
  destruct (decide (gid ∈ rd)) as [Hrd|Hrd].
  - destruct (decide (gid ∈ wr)) as [Hwr|Hwr].
    + destruct (filter (λ g, g = gid) wr) as [|x l] eqn:Hf; [|reflexivity].
      exfalso. apply (filter_nil_not_elem_of _ _ gid Hf); [reflexivity|exact Hwr].
    + destruct (filter (λ g, g = gid) wr) as [|x l] eqn:Hf; [reflexivity|].
      exfalso. apply Hwr.
      assert (Hx : x ∈ filter (λ g, g = gid) wr) by (rewrite Hf; left).
      apply list_elem_of_filter in Hx as [-> Hx]. exact Hx.
  - destruct (List.length _) as [|[|k]]; reflexivity.
Qed.

Lemma update_acl_lookup (keyspace : string) (self : DataObject.t)
    (rd wr : list string) (st : DataObject.store) (gid : string) :
  DataObject.acl_of self (DataObject.update_acl keyspace self rd wr st) !! gid
  = match DataObject.access_of rd wr !! gid ≫= DataObject.ace_of gid with
    | Some ace => Some ace
    | None => DataObject.acl_of self st !! gid
    end.
Proof.
  unfold DataObject.acl_of, DataObject.update_acl. cbn.
  rewrite lookup_insert_eq. cbn. rewrite lookup_union.
  unfold DataObject.acl_literal. rewrite map_lookup_imap.
  destruct (DataObject.access_of rd wr !! gid ≫= DataObject.ace_of gid);
    [|rewrite (left_id_L None _)]; [|reflexivity].
  destruct (default ∅ (DataObject.acls st !! DataObject.uuid self) !! gid);
    reflexivity.
Qed.
End ObjectAclFacts.

(** X16: the entry [update_acl] writes for an identifier that is the id of
    a known group carries the group's name and the mask of a level fixed by
    the two lists: [read/write] when the identifier is in both, [read] when
    it is in the read list only, [write] when it occurs once in the write
    list only, and [read/write] when it occurs there more than once, the
    second occurrence finding the entry of the first; for an identifier in
    neither list (no level) the entry is left as it was. *)
Theorem update_acl_levels {codec : AclCodec} {dir : Group.Directory}
    {zip : Zip} (keyspace : string) (self : DataObject.t)
    (rd wr : list string) (st : DataObject.store) (gid : string)
    (group : Group.t) :
  Group.find_by_uuid gid = Some group →
  ∃ level : string,
    DataObject.acl_of self (DataObject.update_acl keyspace self rd wr st) !! gid
    = (if bool_decide (level = "")
       then DataObject.acl_of self st !! gid
       else Some (mkAce "ALLOW" (Group.name group) 0
                        (str_to_acemask level true)))
    ∧ (gid ∈ rd → gid ∈ wr → level = "read/write")
    ∧ (gid ∈ rd → gid ∉ wr → level = "read")
    ∧ (gid ∉ rd → List.length (filter (λ g, g = gid) wr) = 1%nat →
       level = "write")
    ∧ (gid ∉ rd → (2 ≤ List.length (filter (λ g, g = gid) wr))%nat →
       level = "read/write")
    ∧ (gid ∉ rd → gid ∉ wr → level = "").
Proof.
  intros Hgroup.
  exists (default "" (DataObject.access_of rd wr !! gid)).
  rewrite update_acl_lookup, access_of_spec.
  assert (Hace : ∀ level, DataObject.ace_of gid level
            = Some (mkAce "ALLOW" (Group.name group) 0
                          (str_to_acemask level true))).
  { intros level. unfold DataObject.ace_of. rewrite Hgroup. reflexivity. }
  split.
  { destruct (decide (gid ∈ rd)).
    - cbn. rewrite Hace. destruct (decide (gid ∈ wr)); reflexivity.
    - destruct (List.length _) as [|[|k]]; cbn; rewrite ?Hace; reflexivity. }
  assert (Hnone : gid ∉ wr → List.length (filter (λ g, g = gid) wr) = 0%nat).
  { intros Hwr. destruct (filter (λ g, g = gid) wr) as [|x l] eqn:Hf;
      [reflexivity|]. exfalso. apply Hwr.
    assert (Hx : x ∈ filter (λ g, g = gid) wr) by (rewrite Hf; left).
    apply list_elem_of_filter in Hx as [-> Hx]. exact Hx. }
  split; [|split; [|split; [|split]]].
  - intros Hrd Hwr. rewrite !decide_True by assumption. reflexivity.
  - intros Hrd Hwr. rewrite decide_True, decide_False by assumption.
    reflexivity.
  - intros Hrd Hone. rewrite decide_False, Hone by assumption. reflexivity.
  - intros Hrd Htwo. rewrite decide_False by assumption.
    destruct (List.length _) as [|[|k]]; [lia|lia|]. reflexivity.
  - intros Hrd Hwr. rewrite decide_False, (Hnone Hwr) by assumption.
    reflexivity.
Qed.

Lemma update_acl_levels_witness :
  DataObject.acl_of (ex_object "o1")
    (DataObject.update_acl (codec := acl_model) (dir := group_model)
       "indigo" (ex_object "o1") [] ["g2"; "g2"] ex_chunks) !! "g2"
  = Some (mkAce "ALLOW" "guests" 0 15).
Proof.
  destruct (update_acl_levels (codec := acl_model) (dir := group_model)
              (zip := zip_model) "indigo" (ex_object "o1") [] ["g2"; "g2"]
              ex_chunks "g2" (Group.mk "g2" "guests" "u0"))
    as (level & Hafter & _ & _ & _ & Htwice & _).
  - reflexivity.
  - rewrite Hafter, Htwice; [reflexivity|apply not_elem_of_nil|].
    vm_compute. lia.
Defined.

(** X17: an identifier that is neither the id of a known group nor a
    spelling of [AUTHENTICATED@] is dropped without an error: whether or
    not the lists name it, [update_acl] leaves the entry the ACL had for it,
    or its absence, as it was. *)
Theorem update_acl_drops_unknown {codec : AclCodec} {dir : Group.Directory}
    {zip : Zip} (keyspace : string) (self : DataObject.t)
    (rd wr : list string) (st : DataObject.store) (gid : string) :
  Group.find_by_uuid gid = None →
  upper gid ≠ "AUTHENTICATED@" →
  DataObject.acl_of self (DataObject.update_acl keyspace self rd wr st) !! gid
  = DataObject.acl_of self st !! gid.
Proof.
  intros Hnone Hauth. rewrite update_acl_lookup.
  assert (Hace : ∀ level, DataObject.ace_of gid level = None).
  { intros level. unfold DataObject.ace_of. rewrite Hnone.
    rewrite bool_decide_eq_false_2 by exact Hauth. reflexivity. }
  destruct (DataObject.access_of rd wr !! gid) as [level|]; cbn;
    [rewrite Hace|]; reflexivity.
Qed.

Lemma update_acl_drops_unknown_witness :
  DataObject.acl_of (ex_object "o1")
    (DataObject.update_acl (codec := acl_model) (dir := group_model)
       "indigo" (ex_object "o1") ["nobody"] ["nobody"] ex_chunks) !! "nobody"
  = None.
Proof.
  rewrite (update_acl_drops_unknown (codec := acl_model) (dir := group_model)
             (zip := zip_model)).
  - vm_compute. reflexivity.
  - reflexivity.
  - vm_compute. discriminate.
Defined.

(** X18: [update] never executes a statement keyed on a sequence number.
    It executes, in order, one statement keyed on the uuid alone for each
    leading keyword that is a static field; it returns normally when every
    keyword is one, and otherwise stops at the first that is not, with the
    exception for the attribute [container]. *)
Theorem update_statements (self : DataObject.t)
    (kwargs : list (string * pyval)) :
  ∃ pre post : list (string * pyval),
    kwargs = (pre ++ post)%list
    ∧ Forall (λ kv : string * pyval, kv.1 ∈ DataObject.static_fields) pre
    ∧ (DataObject.update self kwargs).1
      = (λ kv : string * pyval,
           UpdateWhereUuid kv.1 kv.2 (PStr (DataObject.uuid self))) <$> pre
    ∧ ((post = [] ∧ (DataObject.update self kwargs).2 = Ok ())
       ∨ (∃ arg v rest, post = (arg, v) :: rest
            ∧ (arg ∉ DataObject.static_fields)
            ∧ (DataObject.update self kwargs).2
              = Raise (AttributeError "container"))).
Proof.
  induction kwargs as [|[arg v] rest IH].
  - exists [], []. split; [reflexivity|]. split; [constructor|].
    split; [reflexivity|]. left. split; reflexivity.
  - destruct IH as (pre & post & Hsplit & Hpre & Hst & Hres).
    destruct (decide (arg ∈ DataObject.static_fields)) as [Hin|Hout].
    + exists ((arg, v) :: pre), post. cbn [DataObject.update].
      rewrite bool_decide_eq_true_2 by exact Hin. cbn.
      destruct (DataObject.update self rest) as [qs r]. cbn in *.
      split; [rewrite Hsplit; reflexivity|].
      split; [constructor; assumption|].
      split; [rewrite Hst; reflexivity|]. exact Hres.
    + exists [], ((arg, v) :: rest).
      rewrite update_chunk_field_raises by exact Hout.
      split; [reflexivity|]. split; [constructor|].
      split; [reflexivity|]. right. exists arg, v, rest. auto.
Qed.

(** ** ACLs in the CDMI format *)

Section CdmiFacts.
Context {names : GroupNames} {cdmi : CdmiCodec}.

Lemma cdmi_entries_raise (l : list (gmap string string))
    (ace : gmap string string) (e : Exn) :
  ace ∈ l → DataObject.cdmi_entry ace = Raise e →
  ∃ e', DataObject.cdmi_entries l = Raise e'.
Proof.
  intros Hin Hraise. induction l as [|a l IH]; [inversion Hin|].
  cbn [DataObject.cdmi_entries].
  apply elem_of_cons in Hin as [<-|Hin].
  - rewrite Hraise. eauto.
  - destruct (IH Hin) as [e' He'].
    destruct (DataObject.cdmi_entry a) as [[kv|]|e0]; [|eauto|eauto].
    rewrite He'. eauto.
Qed.

Lemma cdmi_entries_elem (l : list (gmap string string))
    (kvs : list (string * Ace)) (kv : string * Ace) :
  DataObject.cdmi_entries l = Ok kvs → kv ∈ kvs →
  ∃ ace, ace ∈ l ∧ DataObject.cdmi_entry ace = Ok (Some kv).
Proof.
  revert kvs. induction l as [|a l IH]; intros kvs; cbn [DataObject.cdmi_entries].
  - intros [= <-] Hin. inversion Hin.
  - destruct (DataObject.cdmi_entry a) as [[kv0|]|e0] eqn:Ha; [| |discriminate].
    + destruct (DataObject.cdmi_entries l) as [kvs0|e1]; [|discriminate].
      intros [= <-] Hin. apply elem_of_cons in Hin as [->|Hin].
      * exists a. split; [left|exact Ha].
      * destruct (IH kvs0 eq_refl Hin) as (ace & Hace & Hentry).
        exists ace. split; [right; exact Hace|exact Hentry].
    + intros Hl Hin. destruct (IH kvs Hl Hin) as (ace & Hace & Hentry).
      exists ace. split; [right; exact Hace|exact Hentry].
Qed.

Lemma cdmi_entry_Some (ace : gmap string string) (k : string) (a : Ace) :
  DataObject.cdmi_entry ace = Ok (Some (k, a)) →
  ∃ gid group acetype flags mask,
    ace !! "identifier" = Some gid
    ∧ Group_find gid = Some group
    ∧ ace !! "acetype" = Some acetype
    ∧ ace !! "aceflags" = Some flags
    ∧ ace !! "acemask" = Some mask
    ∧ k = Group.uuid group
    ∧ a = mkAce (upper acetype) (Group.name group)
                (cdmi_str_to_aceflag flags) (cdmi_str_to_acemask mask false).
Proof.
  unfold DataObject.cdmi_entry.
  destruct (ace !! "identifier") as [gid|] eqn:Hid; [|discriminate].
  destruct (Group_find gid) as [group|] eqn:Hgroup.
  - destruct (ace !! "acetype") as [acetype|] eqn:Htype; [|discriminate].
    destruct (ace !! "aceflags") as [flags|] eqn:Hflags; [|discriminate].
    destruct (ace !! "acemask") as [mask|] eqn:Hmask; [|discriminate].
    intros [= <- <-]. exists gid, group, acetype, flags, mask.
    repeat split; try reflexivity; assumption.
  - case_bool_decide; discriminate.
Qed.

Lemma map_literal_elem (kvs : list (string * Ace)) (k : string) (a : Ace) :
  DataObject.map_literal kvs !! k = Some a → (k, a) ∈ kvs.
Proof.
  unfold DataObject.map_literal.
  assert (Hgen : ∀ acc : gmap string Ace,
             foldl (λ (m : gmap string Ace) kv, <[kv.1 := kv.2]> m) acc kvs
               !! k = Some a →
             acc !! k = Some a ∨ (k, a) ∈ kvs).
  { induction kvs as [|[k0 a0] kvs IH]; intros acc; cbn [foldl]; [auto|].
    intros Hl. destruct (IH _ Hl) as [Hacc|Hin]; [|right; right; exact Hin].
    cbn in Hacc. destruct (decide (k0 = k)) as [->|Hne].
    - rewrite lookup_insert_eq in Hacc. injection Hacc as ->. right. left.
    - rewrite lookup_insert_ne in Hacc by exact Hne. auto. }
  intros Hl. destruct (Hgen ∅ Hl) as [Hempty|Hin]; [|exact Hin].
  rewrite lookup_empty in Hempty. discriminate.
Qed.
End CdmiFacts.

(** X19: [update_cdmi_acl] cannot store an entry for the sentinel: when the
    list holds an ACE whose identifier spells [AUTHENTICATED@] and no group
    has that name, the key of the entry is read from the missing group, the
    call ends with an exception and the store is left as it was. *)
Theorem update_cdmi_acl_sentinel {names : GroupNames} {cdmi : CdmiCodec}
    (self : DataObject.t) (cdmi_acl : list (gmap string string))
    (st : DataObject.store) (cdmi_ace : gmap string string) (gid : string) :
  cdmi_ace ∈ cdmi_acl →
  cdmi_ace !! "identifier" = Some gid →
  Group_find gid = None →
  upper gid = "AUTHENTICATED@" →
  DataObject.cdmi_entry cdmi_ace = Raise (AttributeError "uuid")
  ∧ ∃ e, DataObject.update_cdmi_acl self cdmi_acl st = (Raise e, st).
Proof.
  intros Hin Hid Hnone Hauth.
  assert (Hentry : DataObject.cdmi_entry cdmi_ace
                   = Raise (AttributeError "uuid")).
  { unfold DataObject.cdmi_entry. rewrite Hid, Hnone.
    rewrite bool_decide_eq_true_2 by exact Hauth. reflexivity. }
  split; [exact Hentry|].
  destruct (cdmi_entries_raise _ _ _ Hin Hentry) as [e He].
  exists e. unfold DataObject.update_cdmi_acl. rewrite He. reflexivity.
Qed.

Lemma update_cdmi_acl_sentinel_witness :
  DataObject.update_cdmi_acl (names := names_model) (cdmi := cdmi_model)
    (ex_object "o1") [ex_cdmi_ace "authenticated@"] ex_chunks
  = (Raise (AttributeError "uuid"), ex_chunks).
Proof.
  destruct (update_cdmi_acl_sentinel (names := names_model)
              (cdmi := cdmi_model) (ex_object "o1")
              [ex_cdmi_ace "authenticated@"] ex_chunks
              (ex_cdmi_ace "authenticated@") "authenticated@")
    as [Hentry _].
  - left.
  - vm_compute. reflexivity.
  - reflexivity.
  - reflexivity.
  - unfold DataObject.update_cdmi_acl. cbn [DataObject.cdmi_entries].
    rewrite Hentry. reflexivity.
Defined.

(** X20: [update_cdmi_acl] replaces the ACL.  After a call that returns
    normally every entry of the object's ACL comes from an ACE of the list
    that names a known group: it is keyed by the group's id and carries the
    group's name, the upper-cased type and the decoded flags and mask;
    nothing of the previous ACL is kept, and the chunks are untouched. *)
Theorem update_cdmi_acl_replaces {names : GroupNames} {cdmi : CdmiCodec}
    (self : DataObject.t) (cdmi_acl : list (gmap string string))
    (st st' : DataObject.store) :
  DataObject.update_cdmi_acl self cdmi_acl st = (Ok (), st') →
  DataObject.chunks st' = DataObject.chunks st
  ∧ ∀ (k : string) (a : Ace),
      DataObject.acl_of self st' !! k = Some a →
      ∃ cdmi_ace gid group acetype flags mask,
        cdmi_ace ∈ cdmi_acl
        ∧ cdmi_ace !! "identifier" = Some gid
        ∧ Group_find gid = Some group
        ∧ cdmi_ace !! "acetype" = Some acetype
        ∧ cdmi_ace !! "aceflags" = Some flags
        ∧ cdmi_ace !! "acemask" = Some mask
        ∧ k = Group.uuid group
        ∧ a = mkAce (upper acetype) (Group.name group)
                    (cdmi_str_to_aceflag flags)
                    (cdmi_str_to_acemask mask false).
Proof.
  unfold DataObject.update_cdmi_acl.
  destruct (DataObject.cdmi_entries cdmi_acl) as [kvs|e] eqn:Hl; [|discriminate].
  intros [= <-]. cbn. split; [reflexivity|].
  intros k a. unfold DataObject.acl_of. cbn. rewrite lookup_insert_eq. cbn.
  intros Ha. apply map_literal_elem in Ha.
  destruct (cdmi_entries_elem _ _ _ Hl Ha) as (ace & Hin & Hentry).
  destruct (cdmi_entry_Some _ _ _ Hentry)
    as (gid & group & acetype & flags & mask & Hrest).
  exists ace, gid, group, acetype, flags, mask. split; [exact Hin|exact Hrest].
Qed.

Lemma update_cdmi_acl_replaces_witness :
  DataObject.acl_of (ex_object "o1")
    (DataObject.update_cdmi_acl (names := names_model) (cdmi := cdmi_model)
       (ex_object "o1") [ex_cdmi_ace "guests"] ex_chunks).2
    !! "g1" = None.
Proof.
  destruct (update_cdmi_acl_replaces (names := names_model)
              (cdmi := cdmi_model) (ex_object "o1") [ex_cdmi_ace "guests"]
              ex_chunks
              (DataObject.update_cdmi_acl (names := names_model)
                 (cdmi := cdmi_model) (ex_object "o1") [ex_cdmi_ace "guests"]
                 ex_chunks).2) as [_ Hall].
  - vm_compute. reflexivity.
  - destruct (DataObject.acl_of _ _ !! "g1") as [a|] eqn:Ha; [|reflexivity].
    destruct (Hall "g1" a Ha)
      as (ace & gid & group & _ & _ & _ & Hin & Hid & Hfind & _ & _ & _ & Hk & _).
    apply list_elem_of_singleton in Hin. subst ace.
    vm_compute in Hid. injection Hid as <-.
    vm_compute in Hfind. injection Hfind as <-. discriminate Hk.
Defined.

(** ** What the indexer writes *)

Lemma lower_ascii_idem (c : ascii) : lower_ascii (lower_ascii c) = lower_ascii c.
Proof. destruct c as [[] [] [] [] [] [] [] []]; reflexivity. Qed.

Lemma lower_idem (s : string) : lower (lower s) = lower s.
Proof.
  induction s as [|c s IH]; [reflexivity|].
  cbn. rewrite lower_ascii_idem. f_equal. exact IH.
Qed.

Lemma lower_cons (c : ascii) (s : string) :
  lower (String c s) = String c s ↔ lower_ascii c = c ∧ lower s = s.
Proof.
  change (lower (String c s)) with (String (lower_ascii c) (lower s)).
  split; [intros [= -> ->]; auto|intros [-> ->]; reflexivity].
Qed.

Lemma lower_replace (a : ascii) (s : string) :
  lower s = s → lower (SearchIndex2.replace a " " s) = SearchIndex2.replace a " " s.
Proof.
  induction s as [|c s IH]; [reflexivity|].
  intros Hs. apply lower_cons in Hs as [Hc Hs].
  change (SearchIndex2.replace a " " (String c s))
    with (String (if Ascii.eqb c a then " "%char else c)
                 (SearchIndex2.replace a " " s)).
  apply lower_cons. split; [|exact (IH Hs)].
  destruct (Ascii.eqb c a); [reflexivity|exact Hc].
Qed.

Lemma lower_split_on (sep : ascii) (s w : string) :
  lower s = s → w ∈ SearchIndex2.split_on sep s → lower w = w.
Proof.
  revert w. induction s as [|c s IH]; intros w Hs; cbn [SearchIndex2.split_on].
  - intros Hw. apply list_elem_of_singleton in Hw. subst w. reflexivity.
  - apply lower_cons in Hs as [Hc Hs]. destruct (Ascii.eqb c sep).
    + intros Hw. apply elem_of_cons in Hw as [->|Hw]; [reflexivity|].
      exact (IH w Hs Hw).
    + destruct (SearchIndex2.split_on sep s) as [|w0 ws] eqn:Hsp.
      * intros Hw. apply list_elem_of_singleton in Hw. subst w.
        apply lower_cons. auto.
      * intros Hw. apply elem_of_cons in Hw as [->|Hw].
        -- apply lower_cons. split; [exact Hc|]. apply (IH w0 Hs). left.
        -- apply (IH w Hs). right. exact Hw.
Qed.

Lemma lower_clean (t w : string) : w ∈ SearchIndex2.clean t → lower w = w.
Proof.
  unfold SearchIndex2.clean. case_bool_decide; [intros Hw; inversion Hw|].
  apply lower_split_on. do 2 apply lower_replace. apply lower_idem.
Qed.

Lemma lower_clean_full (t : string) :
  lower (SearchIndex2.clean_full t) = SearchIndex2.clean_full t.
Proof.
  unfold SearchIndex2.clean_full. case_bool_decide; [reflexivity|apply lower_idem].
Qed.

Lemma lower_metadata_terms md (tt : string * string) :
  tt ∈ SearchIndex2.metadata_terms md → lower tt.2 = tt.2.
Proof.
  unfold SearchIndex2.metadata_terms. intros Hin.
  apply list_elem_of_In, in_flat_map in Hin as ([k v] & _ & Hin).
  cbn in Hin. destruct v as [s|l].
  - apply list_elem_of_In, list_elem_of_fmap in Hin as (w & -> & Hw).
    exact (lower_clean _ _ Hw).
  - apply in_flat_map in Hin as (vv & _ & Hin).
    apply list_elem_of_In, list_elem_of_fmap in Hin as (w & -> & Hw).
    exact (lower_clean _ _ Hw).
Qed.

Lemma lower_attr_terms f a (tt : string * string) :
  tt ∈ SearchIndex2.attr_terms f a → lower tt.2 = tt.2.
Proof.
  destruct a as [|s|items]; cbn [SearchIndex2.attr_terms].
  - intros Hin. apply list_elem_of_singleton in Hin. subst tt. reflexivity.
  - intros Hin. apply elem_of_app in Hin as [Hin|Hin].
    + apply list_elem_of_fmap in Hin as (w & -> & Hw). exact (lower_clean _ _ Hw).
    + apply list_elem_of_singleton in Hin. subst tt. apply lower_clean_full.
  - intros Hin. apply list_elem_of_In, in_flat_map in Hin as ([k v] & _ & Hin).
    apply list_elem_of_In, elem_of_app in Hin as [Hin|Hin].
    + apply list_elem_of_fmap in Hin as (w & -> & Hw). exact (lower_clean _ _ Hw).
    + apply list_elem_of_singleton in Hin. subst tt. apply lower_clean_full.
Qed.

Lemma lower_field_terms o fields ts (tt : string * string) :
  SearchIndex2.field_terms o fields = Ok ts → tt ∈ ts → lower tt.2 = tt.2.
Proof.
  revert ts. induction fields as [|f fields IH]; intros ts;
    cbn [SearchIndex2.field_terms].
  - intros [= <-] Hin. inversion Hin.
  - destruct (SearchIndex2.getattr o f) as [a|e]; [|discriminate].
    destruct (SearchIndex2.field_terms o fields) as [ts0|e]; [|discriminate].
    intros [= <-] Hin. apply elem_of_app in Hin as [Hin|Hin].
    + exact (lower_attr_terms _ _ _ Hin).
    + exact (IH ts0 eq_refl Hin).
Qed.

Lemma rows_of_elem (o : SearchIndex2.object) terms (r : SearchIndex2.t) :
  r ∈ SearchIndex2.rows_of o terms
  ↔ ∃ tt : string * string,
      tt ∈ terms
      ∧ SearchIndex2.is_stop_word tt.2 = false
      ∧ (2 ≤ String.length tt.2)%nat
      ∧ r = SearchIndex2.mk tt.2 tt.1 (SearchIndex2.class_name o)
                            (SearchIndex2.id o).
Proof.
  unfold SearchIndex2.rows_of. rewrite list_elem_of_fmap. split.
  - intros (tt & -> & Hin). apply list_elem_of_filter in Hin as [[Hs Hl] Hin].
    exists tt. repeat split; [exact Hin|exact Hs|lia].
  - intros (tt & Hin & Hs & Hl & ->). exists tt. split; [reflexivity|].
    apply list_elem_of_filter. split; [split; [exact Hs|lia]|exact Hin].
Qed.

(** X21: [index] never writes a stop word nor a term shorter than two
    characters; every row it creates carries the id and the class name of
    the indexed object; the count it returns is the number of rows it
    created; and when an attribute cannot be read it creates none. *)
Theorem index_rows_filtered (o : SearchIndex2.object) (fields : list string) :
  Forall (λ r : SearchIndex2.t,
            SearchIndex2.is_stop_word (SearchIndex2.term r) = false
            ∧ (2 ≤ String.length (SearchIndex2.term r))%nat
            ∧ SearchIndex2.object_id r = SearchIndex2.id o
            ∧ SearchIndex2.object_type r = SearchIndex2.class_name o)
         (SearchIndex2.index o fields).1
  ∧ (∀ n, (SearchIndex2.index o fields).2 = Ok n →
          n = List.length (SearchIndex2.index o fields).1)
  ∧ (∀ e, (SearchIndex2.index o fields).2 = Raise e →
          (SearchIndex2.index o fields).1 = []).
Proof.
  unfold SearchIndex2.index.
  destruct (SearchIndex2.field_terms o _) as [ts|e]; cbn [fst snd].
  - split; [|split; [intros n [= <-]; reflexivity|discriminate]].
    apply Forall_forall. intros r Hr.
    apply rows_of_elem in Hr as (tt & _ & Hs & Hl & ->). cbn. auto.
  - split; [constructor|]. split; [discriminate|reflexivity].
Qed.

(** X22: every term [index] writes is in lower case: lowering it again
    changes nothing. *)
Theorem index_terms_lowercase (o : SearchIndex2.object)
    (fields : list string) (r : SearchIndex2.t) :
  r ∈ (SearchIndex2.index o fields).1 →
  lower (SearchIndex2.term r) = SearchIndex2.term r.
Proof.
  unfold SearchIndex2.index.
  destruct (SearchIndex2.field_terms o _) as [ts|e] eqn:Hts; cbn [fst];
    [|intros Hr; inversion Hr].
  intros Hr. apply rows_of_elem in Hr as (tt & Hin & _ & _ & ->). cbn.
  apply elem_of_app in Hin as [Hin|Hin].
  - case_bool_decide; [|inversion Hin]. exact (lower_metadata_terms _ _ Hin).
  - exact (lower_field_terms _ _ _ _ Hts Hin).
Qed.

Lemma index_terms_lowercase_witness :
  SearchIndex2.term <$> (SearchIndex2.index ex_mixed ["name"]).1
  = ["annual"; "report"; "pdf"; "2015"; "annual_report.pdf of 2015"]
  ∧ lower "annual_report.pdf of 2015" = "annual_report.pdf of 2015".
Proof.
  split; [vm_compute; reflexivity|].
  apply (index_terms_lowercase ex_mixed ["name"]
           (SearchIndex2.mk "annual_report.pdf of 2015" "name" "Collection"
                            "id2")).
  vm_compute. do 4 right. left.
Defined.

(** ** The index table *)

Section IndexTableFacts.
Context {uuids : SearchIndex2.UuidGen}.

Lemma reset_lookup (id : string) (st : SearchIndex2.store) k :
  SearchIndex2.rows (SearchIndex2.reset id st) !! k
  = if decide (k.2 = id) then None else SearchIndex2.rows st !! k.
Proof.
  unfold SearchIndex2.reset. cbn. destruct (decide (k.2 = id)) as [E|E].
  - apply map_lookup_filter_None_2. right. intros x _ Hn. exact (Hn E).
  - destruct (SearchIndex2.rows st !! k) as [x|] eqn:Hk.
    + apply map_lookup_filter_Some_2; [exact Hk|exact E].
    + apply map_lookup_filter_None_2. left. exact Hk.
Qed.

Lemma create_all_other (created : list SearchIndex2.t)
    (st : SearchIndex2.store) k :
  (∀ r, r ∈ created → SearchIndex2.object_id r ≠ k.2) →
  SearchIndex2.rows (foldl (λ st r, SearchIndex2.create r st) st created) !! k
  = SearchIndex2.rows st !! k.
Proof.
  revert st. induction created as [|r created IH]; intros st Hall;
    cbn [foldl]; [reflexivity|].
  rewrite IH by (intros r' Hr'; apply Hall; right; exact Hr').
  cbn. apply lookup_insert_ne. intros E.
  apply (Hall r); [left|]. rewrite <- E. reflexivity.
Qed.

Lemma create_all_written (created : list SearchIndex2.t)
    (st : SearchIndex2.store) (r : SearchIndex2.t) :
  r ∈ created →
  ∃ c, SearchIndex2.rows (foldl (λ st r, SearchIndex2.create r st) st created)
         !! (SearchIndex2.term r, SearchIndex2.term_type r,
             SearchIndex2.object_id r) = Some c.
Proof.
  revert st. induction created as [|r0 created IH]; intros st Hin;
    [inversion Hin|]. cbn [foldl].
  assert (Hkeep : ∀ (l : list SearchIndex2.t) (s : SearchIndex2.store) k,
             is_Some (SearchIndex2.rows s !! k) →
             is_Some (SearchIndex2.rows
                        (foldl (λ st r, SearchIndex2.create r st) s l) !! k)).
  { clear. induction l as [|x l IHl]; intros s k Hs; [exact Hs|].
    cbn [foldl]. apply IHl. cbn.
    destruct (decide ((SearchIndex2.term x, SearchIndex2.term_type x,
                       SearchIndex2.object_id x) = k)) as [<-|Hne].
    - rewrite lookup_insert_eq. eauto.
    - rewrite lookup_insert_ne by exact Hne. exact Hs. }
  apply elem_of_cons in Hin as [->|Hin]; [|apply IH; exact Hin].
  apply Hkeep. cbn. rewrite lookup_insert_eq. eauto.
Qed.
End IndexTableFacts.

(** X23: [reset] undoes [index].  Indexing an object touches only rows
    keyed by that object's id: every row it creates is in the table
    afterwards and the rows of other objects are as before; [reset] with
    the object's id then leaves the table with exactly the rows a [reset]
    of the table before indexing would have left, none of them keyed by
    that id. *)
Theorem reset_undoes_index {uuids : SearchIndex2.UuidGen}
    (o : SearchIndex2.object) (fields : list string)
    (st : SearchIndex2.store) :
  (∀ r, r ∈ (SearchIndex2.index o fields).1 →
        is_Some (SearchIndex2.rows (SearchIndex2.index_rows o fields st).1
                   !! (SearchIndex2.term r, SearchIndex2.term_type r,
                       SearchIndex2.id o)))
  ∧ (∀ k, k.2 ≠ SearchIndex2.id o →
          SearchIndex2.rows (SearchIndex2.index_rows o fields st).1 !! k
          = SearchIndex2.rows st !! k)
  ∧ SearchIndex2.rows
      (SearchIndex2.reset (SearchIndex2.id o)
         (SearchIndex2.index_rows o fields st).1)
    = SearchIndex2.rows (SearchIndex2.reset (SearchIndex2.id o) st)
  ∧ ∀ k, k.2 = SearchIndex2.id o →
         SearchIndex2.rows
           (SearchIndex2.reset (SearchIndex2.id o)
              (SearchIndex2.index_rows o fields st).1) !! k = None.
Proof.
  pose proof (index_rows_filtered o fields) as [Hall _].
  rewrite Forall_forall in Hall.
  unfold SearchIndex2.index_rows.
  destruct (SearchIndex2.index o fields) as [created r] eqn:Hidx.
  cbn [fst snd] in *.
  assert (Hother : ∀ k, k.2 ≠ SearchIndex2.id o →
            SearchIndex2.rows
              (foldl (λ st r, SearchIndex2.create r st) st created) !! k
            = SearchIndex2.rows st !! k).
  { intros k Hk. apply create_all_other. intros r' Hr'.
    destruct (Hall r' Hr') as (_ & _ & Hid & _). congruence. }
  split; [|split; [exact Hother|split]].
  - intros r' Hr'. destruct (Hall r' Hr') as (_ & _ & Hid & _).
    rewrite <- Hid. destruct (create_all_written created st r' Hr') as [c Hc].
    eauto.
  - apply map_eq. intros k. rewrite !reset_lookup.
    destruct (decide (k.2 = SearchIndex2.id o)); [reflexivity|].
    apply Hother. assumption.
  - intros k Hk. rewrite reset_lookup, decide_True by exact Hk. reflexivity.
Qed.

(** ** Nodes *)

Lemma filter_address_elem (a : string) (tb : Node.table) i r :
  (i, r) ∈ Node.filter_address a tb ↔ tb !! i = Some r ∧ Node.address r = a.
Proof.
  unfold Node.filter_address. rewrite list_elem_of_filter, elem_of_map_to_list.
  cbn. split; intros [? ?]; auto.
Qed.

Lemma filter_name_elem (x : string) (tb : Node.table) i r :
  (i, r) ∈ Node.filter_name x tb ↔ tb !! i = Some r ∧ Node.name r = x.
Proof.
  unfold Node.filter_name. rewrite list_elem_of_filter, elem_of_map_to_list.
  cbn. split; intros [? ?]; auto.
Qed.

Lemma length_zero_no_elem {A} (l : list A) :
  List.length l = 0%nat ↔ ∀ x, x ∉ l.
Proof.
  destruct l as [|x l]; cbn; split; try reflexivity; try discriminate.
  - intros _ y Hy. inversion Hy.
  - intros Hall. exfalso. apply (Hall x). left.
Qed.

(** X24: [Node.create] refuses an address that a stored node already has,
    with [NodeConflictError] and an unchanged table; with a free address
    and a name it stores the node under the generated id, with status [UP]
    and the time of the call when neither was given, and leaves the other
    rows alone. *)
Theorem node_create_outcomes (new_id : string) (now : Z) (kw : Node.kwargs)
    (tb : Node.table) (a : string) :
  Node.kw_address kw = Some a →
  ((∃ i r, tb !! i = Some r ∧ Node.address r = a) →
     Node.create new_id now kw tb = (inl (Node.NodeConflictError a), tb))
  ∧ ((∀ i r, tb !! i = Some r → Node.address r ≠ a) →
     ∀ n, Node.kw_name kw = Some n →
       ∃ c : Node.cols,
         c = Node.mkCols n a
               (Some (default now (Node.kw_last_update kw)))
               (default "UP" (Node.kw_status kw))
         ∧ Node.create new_id now kw tb
           = (inr (Node.mk new_id c), <[new_id := c]> tb)
         ∧ Node.find_by_id new_id (Node.create new_id now kw tb).2
           = Some (Node.mk new_id c)
         ∧ ∀ i, i ≠ new_id →
                (Node.create new_id now kw tb).2 !! i = tb !! i).
Proof.
  intros Ha. unfold Node.create. rewrite Ha. split.
  - intros (i & r & Hi & Hr). rewrite bool_decide_eq_true_2; [reflexivity|].
    rewrite length_zero_no_elem. intros Hnone.
    apply (Hnone (i, r)). apply filter_address_elem. auto.
  - intros Hfree n Hn. eexists. split; [reflexivity|].
    rewrite bool_decide_eq_false_2.
    2:{ intros Hlen. apply Hlen. apply length_zero_no_elem. intros [i r] Hin.
        apply filter_address_elem in Hin as [Hi Hr]. exact (Hfree i r Hi Hr). }
    rewrite Hn. destruct (Node.kw_last_update kw); cbn;
      (split; [reflexivity|]);
      (split; [unfold Node.find_by_id; rewrite lookup_insert_eq; reflexivity|]);
      intros i Hi; apply lookup_insert_ne; congruence.
Qed.

Lemma node_create_outcomes_witness :
  Node.create "n2" 5 (ex_node_kwargs "beta" "10.0.0.1") ex_nodes
  = (inl (Node.NodeConflictError "10.0.0.1"), ex_nodes).
Proof.
  destruct (node_create_outcomes "n2" 5 (ex_node_kwargs "beta" "10.0.0.1")
              ex_nodes "10.0.0.1") as [Hconflict _].
  - reflexivity.
  - apply Hconflict. exists "n1", (Node.mkCols "alpha" "10.0.0.1" (Some 1) "UP").
    split; [vm_compute|]; reflexivity.
Defined.

(** X25: [Node.create] keeps addresses unique: when no two stored nodes
    share an address before the call, none do after it, whether it stores a
    node or raises, and whatever id is generated. *)
Theorem node_create_unique (new_id : string) (now : Z) (kw : Node.kwargs)
    (tb : Node.table) :
  Node.unique_addresses tb →
  Node.unique_addresses (Node.create new_id now kw tb).2.
Proof.
  intros Huniq. unfold Node.create.
  destruct (Node.kw_address kw) as [a|]; [|exact Huniq].
  case_bool_decide as Hlen; [exact Huniq|].
  destruct (Node.kw_name kw) as [n|]; [|exact Huniq]. cbn.
  assert (Hfree : ∀ i r, tb !! i = Some r → Node.address r ≠ a).
  { intros i r Hi Hr.
    apply (proj1 (length_zero_no_elem _) Hlen (i, r)).
    apply filter_address_elem. auto. }
  intros i j r r' Hi Hj Haddr.
  destruct (decide (i = new_id)) as [->|Hni];
    destruct (decide (j = new_id)) as [->|Hnj]; [reflexivity| | |].
  - rewrite lookup_insert_eq in Hi. rewrite lookup_insert_ne in Hj by congruence.
    injection Hi as <-. cbn in Haddr. exfalso.
    exact (Hfree j r' Hj (eq_sym Haddr)).
  - rewrite lookup_insert_eq in Hj. rewrite lookup_insert_ne in Hi by congruence.
    injection Hj as <-. cbn in Haddr. exfalso. exact (Hfree i r Hi Haddr).
  - rewrite lookup_insert_ne in Hi, Hj by congruence.
    exact (Huniq i j r r' Hi Hj Haddr).
Qed.

Lemma node_create_unique_witness :
  Node.unique_addresses
    (Node.create "n2" 5 (ex_node_kwargs "beta" "10.0.0.2") ex_nodes).2.
Proof.
  apply (node_create_unique "n2" 5 (ex_node_kwargs "beta" "10.0.0.2") ex_nodes).
  intros i j r r' Hi Hj _.
  assert (Hone : ∀ k x, ex_nodes !! k = Some x → k = "n1").
  { intros k x Hk. unfold ex_nodes in Hk.
    apply lookup_singleton_Some in Hk as [<- _]. reflexivity. }
  rewrite (Hone i r Hi), (Hone j r' Hj). reflexivity.
Defined.

(** X26: [Node.find] looks a node up by name first and by address second:
    when some stored node has the given name the result is a stored node
    with that name; otherwise, when some stored node has it as address, the
    result is a stored node with that address; otherwise it is [None]. *)
Theorem node_find_precedence (x : string) (tb : Node.table) :
  ((∃ i r, tb !! i = Some r ∧ Node.name r = x) →
     ∃ n, Node.find x tb = Some n
          ∧ tb !! Node.id n = Some (Node.columns n)
          ∧ Node.name (Node.columns n) = x)
  ∧ ((∀ i r, tb !! i = Some r → Node.name r ≠ x) →
     (∃ i r, tb !! i = Some r ∧ Node.address r = x) →
     ∃ n, Node.find x tb = Some n
          ∧ tb !! Node.id n = Some (Node.columns n)
          ∧ Node.address (Node.columns n) = x)
  ∧ ((∀ i r, tb !! i = Some r → Node.name r ≠ x ∧ Node.address r ≠ x) →
     Node.find x tb = None).
Proof.
  unfold Node.find. split; [|split].
  - intros (i & r & Hi & Hr).
    destruct (Node.filter_name x tb) as [|[i0 r0] l] eqn:Hf.
    + exfalso. assert (Hin : (i, r) ∈ Node.filter_name x tb)
        by (apply filter_name_elem; auto).
      rewrite Hf in Hin. inversion Hin.
    + assert (Hin : (i0, r0) ∈ Node.filter_name x tb) by (rewrite Hf; left).
      apply filter_name_elem in Hin as [Hi0 Hr0].
      eexists. split; [reflexivity|]. auto.
  - intros Hnoname (i & r & Hi & Hr).
    destruct (Node.filter_name x tb) as [|[i0 r0] l] eqn:Hf.
    2:{ exfalso. assert (Hin : (i0, r0) ∈ Node.filter_name x tb)
          by (rewrite Hf; left).
        apply filter_name_elem in Hin as [Hi0 Hr0].
        exact (Hnoname i0 r0 Hi0 Hr0). }
    cbn [head].
    destruct (Node.filter_address x tb) as [|[i0 r0] l] eqn:Hfa.
    + exfalso. assert (Hin : (i, r) ∈ Node.filter_address x tb)
        by (apply filter_address_elem; auto).
      rewrite Hfa in Hin. inversion Hin.
    + assert (Hin : (i0, r0) ∈ Node.filter_address x tb)
        by (rewrite Hfa; left).
      apply filter_address_elem in Hin as [Hi0 Hr0].
      eexists. split; [reflexivity|]. auto.
  - intros Hnone.
    destruct (Node.filter_name x tb) as [|[i0 r0] l] eqn:Hf.
    2:{ exfalso. assert (Hin : (i0, r0) ∈ Node.filter_name x tb)
          by (rewrite Hf; left).
        apply filter_name_elem in Hin as [Hi0 Hr0].
        exact (proj1 (Hnone i0 r0 Hi0) Hr0). }
    cbn [head].
    destruct (Node.filter_address x tb) as [|[i0 r0] l] eqn:Hfa;
      [reflexivity|].
    exfalso. assert (Hin : (i0, r0) ∈ Node.filter_address x tb)
      by (rewrite Hfa; left).
    apply filter_address_elem in Hin as [Hi0 Hr0].
    exact (proj2 (Hnone i0 r0 Hi0) Hr0).
Qed.

(** X27: a node just created is found again by its address, provided no
    stored node, the new one included, is named like that address: the
    name is looked up first. *)
Theorem node_create_then_find (new_id : string) (now : Z) (kw : Node.kwargs)
    (tb tb' : Node.table) (node : Node.t) :
  Node.create new_id now kw tb = (inr node, tb') →
  (∀ i r, tb' !! i = Some r → Node.name r ≠ Node.address (Node.columns node)) →
  Node.find (Node.address (Node.columns node)) tb' = Some node.
Proof.
  unfold Node.create.
  destruct (Node.kw_address kw) as [a|]; [|discriminate].
  case_bool_decide as Hlen; [discriminate|].
  destruct (Node.kw_name kw) as [n|]; [|discriminate].
  intros [= <- <-]. cbn [Node.columns Node.address]. intros Hnoname.
  set (c := Node.mkCols n a _ _) in *.
  assert (Hfree : ∀ i r, tb !! i = Some r → Node.address r ≠ a).
  { intros i r Hi Hr.
    apply (proj1 (length_zero_no_elem _) Hlen (i, r)).
    apply filter_address_elem. auto. }
  unfold Node.find.
  destruct (Node.filter_name a (<[new_id := c]> tb)) as [|[i0 r0] l] eqn:Hf.
  2:{ exfalso. assert (Hin : (i0, r0) ∈ Node.filter_name a (<[new_id := c]> tb))
        by (rewrite Hf; left).
      apply filter_name_elem in Hin as [Hi0 Hr0].
      exact (Hnoname i0 r0 Hi0 Hr0). }
  cbn [head].
  destruct (Node.filter_address a (<[new_id := c]> tb)) as [|[i0 r0] l] eqn:Hfa.
  - exfalso.
    assert (Hin : (new_id, c) ∈ Node.filter_address a (<[new_id := c]> tb)).
    { apply filter_address_elem. rewrite lookup_insert_eq. auto. }
    rewrite Hfa in Hin. inversion Hin.
  - assert (Hin : (i0, r0) ∈ Node.filter_address a (<[new_id := c]> tb))
      by (rewrite Hfa; left).
    apply filter_address_elem in Hin as [Hi0 Hr0].
    destruct (decide (i0 = new_id)) as [->|Hne].
    + rewrite lookup_insert_eq in Hi0. injection Hi0 as <-. reflexivity.
    + rewrite lookup_insert_ne in Hi0 by congruence.
      exfalso. exact (Hfree i0 r0 Hi0 Hr0).
Qed.

Lemma node_create_then_find_witness :
  Node.find "10.0.0.2"
    (Node.create "n2" 5 (ex_node_kwargs "beta" "10.0.0.2") ex_nodes).2
  = Some (Node.mk "n2" (Node.mkCols "beta" "10.0.0.2" (Some 5) "UP")).
Proof.
  apply (node_create_then_find "n2" 5 (ex_node_kwargs "beta" "10.0.0.2")
           ex_nodes
           (Node.create "n2" 5 (ex_node_kwargs "beta" "10.0.0.2") ex_nodes).2
           (Node.mk "n2" (Node.mkCols "beta" "10.0.0.2" (Some 5) "UP"))).
  - reflexivity.
  - intros i r Hi.
    change ((<["n2" := Node.mkCols "beta" "10.0.0.2" (Some 5) "UP"]> ex_nodes)
              !! i = Some r) in Hi.
    destruct (decide (i = "n2")) as [->|Hne].
    + rewrite lookup_insert_eq in Hi. injection Hi as <-. discriminate.
    + rewrite lookup_insert_ne in Hi by congruence. unfold ex_nodes in Hi.
      apply lookup_singleton_Some in Hi as [_ <-]. discriminate.
Defined.

(** ** Two further edges of the data object *)

(** X28: [update_acl] accepts the sentinel in any letter case: an
    identifier that is no group id but upper-cases to [AUTHENTICATED@], named
    in the read list only, gets an entry stored under the spelling given,
    with the identifier [AUTHENTICATED@] and the mask of [read]. *)
Theorem update_acl_sentinel_case {codec : AclCodec} {dir : Group.Directory}
    {zip : Zip} (keyspace : string) (self : DataObject.t)
    (rd wr : list string) (st : DataObject.store) (gid : string) :
  Group.find_by_uuid gid = None →
  upper gid = "AUTHENTICATED@" →
  gid ∈ rd →
  gid ∉ wr →
  DataObject.acl_of self (DataObject.update_acl keyspace self rd wr st) !! gid
  = Some (mkAce "ALLOW" "AUTHENTICATED@" 0 (str_to_acemask "read" true)).
Proof.
  intros Hnone Hauth Hrd Hwr.
  rewrite update_acl_lookup, access_of_spec.
  rewrite decide_True, decide_False by assumption. cbn.
  unfold DataObject.ace_of. rewrite Hnone.
  rewrite bool_decide_eq_true_2 by exact Hauth. reflexivity.
Qed.

Lemma update_acl_sentinel_case_witness :
  DataObject.acl_of (ex_object "o1")
    (DataObject.update_acl (codec := acl_model) (dir := group_model)
       "indigo" (ex_object "o1") ["authenticated@"] [] ex_chunks)
    !! "authenticated@"
  = Some (mkAce "ALLOW" "AUTHENTICATED@" 0 1).
Proof.
  apply (update_acl_sentinel_case (codec := acl_model) (dir := group_model)
           (zip := zip_model) "indigo" (ex_object "o1") ["authenticated@"] []
           ex_chunks "authenticated@").
  - reflexivity.
  - reflexivity.
  - left.
  - apply not_elem_of_nil.
Defined.

(** X29: a compressed chunk whose archive cannot be read ends the reading
    of an object at that chunk: the values of the chunks before it have
    been yielded, in order, the exception of the archive reader follows,
    and nothing of the later chunks is produced. *)
Theorem chunk_content_stops {codec : AclCodec} {dir : Group.Directory}
    {zip : Zip} (self : DataObject.t) (st : DataObject.store)
    (before after : list (Z * DataObject.chunk)) (bad : Z * DataObject.chunk)
    (e : Exn) :
  DataObject.objects_filter (DataObject.uuid self) st
  = (before ++ bad :: after)%list →
  Forall DataObject.readable before →
  DataObject.compressed bad.2 = true →
  zip_read (DataObject.blob bad.2) "data" = Raise e →
  ∃ ys : list string,
    DataObject.chunk_content self st = (ys, Some e)
    ∧ Forall2 DataObject.yields before ys.
Proof.
  intros Hrows Hread Hc Hz. unfold DataObject.chunk_content. rewrite Hrows.
  destruct (drain_readable before Hread) as (ys & Hys & Hall).
  exists ys. split; [|exact Hall].
  rewrite (drain_app _ _ ys Hys). cbn [DataObject.drain].
  rewrite Hc, Hz. cbn. rewrite app_nil_r. reflexivity.
Qed.

Lemma chunk_content_stops_witness :
  DataObject.chunk_content (zip := zip_model) (ex_object "o1")
    (DataObject.append_chunk ex_defaults "o1" "broken" 1 true ex_chunks).2
  = (["ab"], Some (KeyError "data")).
Proof.
  destruct (chunk_content_stops (codec := acl_model) (dir := group_model)
              (zip := zip_model) (ex_object "o1")
              (DataObject.append_chunk ex_defaults "o1" "broken" 1 true
                 ex_chunks).2
              [(0, DataObject.mkChunk "ab" false)]
              [(2, DataObject.mkChunk "cd" false)]
              (1, DataObject.mkChunk "broken" true) (KeyError "data"))
    as (ys & Hrun & Hys).
  - vm_compute. reflexivity.
  - repeat constructor. discriminate.
  - reflexivity.
  - reflexivity.
  - rewrite Hrun. f_equal.
    apply Forall2_cons_inv_l in Hys as (y & ys' & Hy & Hnil & ->).
    apply Forall2_nil_inv_l in Hnil as ->.
    unfold DataObject.yields in Hy. cbn in Hy. rewrite Hy. reflexivity.
Defined.
